(** * Tone playback and crossfade engine (infra/messenger.js, core/pure.js)

    A shallow embedding of the audio part of [infra/messenger.js] and of
    [isValidFrequency] from [core/pure.js].

    Conventions of the model.
    - A JavaScript number is an exact rational, or NaN, or one of the two
      infinities ([jsnum]).  Rounding of doubles is not modelled.
    - The module-level variables [audioContext], [gainNode], [oscillator]
      and [isPlaying] are fields of the record [World], next to the part of
      the browser the engine talks to: the oscillator nodes it created, the
      set of nodes connected to the gain node, pending [setTimeout]
      callbacks, the [localStorage] cell [tol_volume], the console and the
      two clocks.
    - An [async] function is cut at its [await]s.  The piece that runs when
      the function is called is named after the function; what remains is a
      stack of [Frame]s, run by [resume] when the awaited promise settles.
      When a frame returns, the frame that awaited it runs in the same
      step: only microtasks run between the two, and the promise the outer
      frame awaits is settled by the inner one alone.
    - The event loop ([step]) may start a call, wake a suspended call whose
      promise has settled, run a timer callback that is due, or let time
      pass, in any order.
    - What the browser decides (is there an audio API, does [resume()]
      reject, does a node method throw) is read from a record [Dev] handed
      to every step. *)

From Stdlib Require Import ZArith QArith Qminmax String Ascii List Lia Lqa DecimalString.
From stdpp Require Import base gmap sets list.

Local Open Scope Z_scope.

(* ====================================================================== *)
(** ** JavaScript values *)
(* ====================================================================== *)

Inductive jsnum : Type :=
| Fin (q : Q)
| NaN
| PosInf
| NegInf.

Inductive jsval : Type :=
| JNum (n : jsnum)
| JStr (s : string)
| JBool (b : bool)
| JUndefined
| JNull.

Definition Qlt_bool (a b : Q) : bool := negb (Qle_bool b a).

(** [a < b] on numbers: false as soon as one side is NaN. *)
Definition js_lt (a b : jsnum) : bool :=
  match a, b with
  | NaN, _ | _, NaN => false
  | Fin x, Fin y => Qlt_bool x y
  | NegInf, NegInf => false
  | NegInf, _ => true
  | _, PosInf => match a with PosInf => false | _ => true end
  | _, _ => false
  end.

(** [a > b] *)
Definition js_gt (a b : jsnum) : bool := js_lt b a.

(** [Math.min(a, b)] and [Math.max(a, b)] *)
Definition Math_min (a b : jsnum) : jsnum :=
  match a, b with
  | NaN, _ | _, NaN => NaN
  | _, _ => if js_lt b a then b else a
  end.

Definition Math_max (a b : jsnum) : jsnum :=
  match a, b with
  | NaN, _ | _, NaN => NaN
  | _, _ => if js_lt a b then b else a
  end.

(** [a / c] and [a * c] for a literal [c > 0] (the code only divides by 100
    and multiplies by 0.3). *)
Definition js_div_lit (a : jsnum) (c : Q) : jsnum :=
  match a with Fin q => Fin (q / c) | other => other end.

Definition js_mul_lit (a : jsnum) (c : Q) : jsnum :=
  match a with Fin q => Fin (q * c) | other => other end.

Definition is_finite (a : jsnum) : bool :=
  match a with Fin _ => true | _ => false end.

(* ====================================================================== *)
(** ** core/pure.js *)
(* ====================================================================== *)

(** [typeof freq === 'number' && freq > 0 && freq < 20000] *)
Definition isValidFrequency (freq : jsval) : bool :=
  match freq with
  | JNum n => js_gt n (Fin 0) && js_lt n (Fin 20000)
  | _ => false
  end.

(* ====================================================================== *)
(** ** parseInt(s, 10) and Number.prototype.toString *)
(* ====================================================================== *)

Definition is_ws (c : ascii) : bool :=
  let n := nat_of_ascii c in
  (n =? 32)%nat || ((9 <=? n)%nat && (n <=? 13)%nat).

Fixpoint skip_ws (s : string) : string :=
  match s with
  | String c r => if is_ws c then skip_ws r else s
  | EmptyString => s
  end.

Definition digit_of (c : ascii) : option Z :=
  let n := nat_of_ascii c in
  if ((48 <=? n)%nat && (n <=? 57)%nat)%bool then Some (Z.of_nat n - 48) else None.

(** The longest prefix of decimal digits, read as an integer; [acc] is
    [None] until the first digit is seen. *)
Fixpoint read_digits (s : string) (acc : option Z) : option Z :=
  match s with
  | String c r =>
      match digit_of c with
      | Some d => read_digits r (Some (10 * default 0 acc + d))
      | None => acc
      end
  | EmptyString => acc
  end.

Definition parseInt10 (s : string) : jsnum :=
  let body := skip_ws s in
  let '(neg, digits) :=
    match body with
    | String "-"%char r => (true, r)
    | String "+"%char r => (false, r)
    | _ => (false, body)
    end in
  match read_digits digits None with
  | Some z => Fin (inject_Z (if neg then - z else z))
  | None => NaN
  end.

(** Fraction digits of [r / d], at most [n] of them. *)
Fixpoint frac_digits (n : nat) (r d : Z) : string :=
  match n with
  | O => EmptyString
  | S n' =>
      if r =? 0 then EmptyString
      else (NilZero.string_of_int (Z.to_int ((10 * r) / d))
            ++ frac_digits n' ((10 * r) mod d) d)%string
  end.

(** A text without the zeros at its end. *)
Fixpoint strip_trailing_zeros (s : string) : string :=
  match s with
  | EmptyString => EmptyString
  | String c r =>
      match strip_trailing_zeros r with
      | EmptyString => if (c =? "0")%char then EmptyString else String c EmptyString
      | r' => String c r'
      end
  end.

(** The digits [d1 d2 ... dk] written [d1.d2...dk], without zeros at the
    end and without the point when one digit is left. *)
Definition mantissa (digits : string) : string :=
  match digits with
  | EmptyString => EmptyString
  | String c r =>
      match strip_trailing_zeros r with
      | EmptyString => String c EmptyString
      | r' => String c (String "." r')
      end
  end.

(** For [0 < r < d]: the place [m] of the first digit of [r / d] that is
    not zero, with [r * 10 ^ m]. *)
Fixpoint first_place (fuel : nat) (r d m : Z) : Z * Z :=
  match fuel with
  | O => (m, r)
  | S fuel' => if d <=? r then (m, r) else first_place fuel' (10 * r) d (m + 1)
  end.

(** [n.toString()].  From 1e21 upwards and below 1e-6 the digits are
    followed by an exponent ([1e+21], [5e-7]); in between a whole number
    prints as its decimal digits and a fraction as its expansion.  The
    expansion is the exact one, cut at twenty places: an engine prints the
    shortest digits that read back as the same double, which has the same
    first digits and the same exponent. *)
Definition number_toString (n : jsnum) : string :=
  match n with
  | NaN => "NaN"%string
  | PosInf => "Infinity"%string
  | NegInf => "-Infinity"%string
  | Fin q =>
      let a := Z.abs (Qnum q) in
      let d := Z.pos (Qden q) in
      let sign := if Qnum q <? 0 then "-"%string else EmptyString in
      if 10 ^ 21 * d <=? a then
        let whole := NilZero.string_of_int (Z.to_int (a / d)) in
        (sign ++ mantissa (whole ++ frac_digits 20 (a mod d) d) ++ "e+"
         ++ NilZero.string_of_int (Z.to_int (Z.of_nat (String.length whole) - 1)))%string
      else if (0 <? a) && (a * 10 ^ 6 <? d) then
        let '(m, r) := first_place (S (Z.to_nat (Z.log2 d))) a d 0 in
        (sign ++ mantissa (NilZero.string_of_int (Z.to_int (r / d))
                           ++ frac_digits 20 (r mod d) d) ++ "e-"
         ++ NilZero.string_of_int (Z.to_int m))%string
      else if a mod d =? 0 then NilZero.string_of_int (Z.to_int (Qnum q / d))
      else (sign ++ NilZero.string_of_int (Z.to_int (a / d)) ++ "."
            ++ frac_digits 20 (a mod d) d)%string
  end.

(* ====================================================================== *)
(** ** The browser: gain parameter, oscillator nodes, timers, console *)
(* ====================================================================== *)

(** Automation events of [gainNode.gain], kept ordered by time. *)
Inductive AutomationEvent : Type :=
| SetValue (v t : Q)
| LinearRamp (v t : Q).

Definition ev_time (e : AutomationEvent) : Q :=
  match e with SetValue _ t | LinearRamp _ t => t end.

(** A new event goes after the events that are not later than it. *)
Fixpoint schedule (e : AutomationEvent) (l : list AutomationEvent) : list AutomationEvent :=
  match l with
  | [] => [e]
  | x :: r => if Qle_bool (ev_time x) (ev_time e) then x :: schedule e r else e :: l
  end.

Record AudioParam : Type := mkParam {
  initial : Q;                       (* value before the first event *)
  events : list AutomationEvent
}.

(** The value the events give at time [t], coming from value [v0] held
    since [t0]. *)
Fixpoint value_from (v0 t0 : Q) (evs : list AutomationEvent) (t : Q) : Q :=
  match evs with
  | [] => v0
  | SetValue v te :: r =>
      if Qle_bool te t then value_from v te r t else v0
  | LinearRamp v te :: r =>
      if Qle_bool te t then value_from v te r t
      else if Qle_bool te t0 then v0
      else (v0 + (v - v0) * ((t - t0) / (te - t0)))%Q
  end.

(** Reading [gain.value] at time [t]. *)
Definition param_value (p : AudioParam) (t : Q) : Q :=
  value_from (initial p) 0 (events p) t.

(** [gain.setValueAtTime(v, t)] *)
Definition setValueAtTime (v t : Q) (p : AudioParam) : AudioParam :=
  mkParam (initial p) (schedule (SetValue v t) (events p)).

(** [gain.linearRampToValueAtTime(v, t)]: a value that is not finite is a
    TypeError ([None]). *)
Definition linearRampToValueAtTime (v : jsnum) (t : Q) (p : AudioParam) : option AudioParam :=
  match v with
  | Fin q => Some (mkParam (initial p) (schedule (LinearRamp q t) (events p)))
  | _ => None
  end.

(** [gain.value = v] at time [now]. *)
Definition set_param_value (v now : Q) (p : AudioParam) : AudioParam :=
  setValueAtTime v now p.

Inductive OscType : Type := Sine | Square | Sawtooth | Triangle.

(** An oscillator node: [vstart] is the time [start] was called for,
    [vstop] the time [stop] was called for. *)
Record Voice : Type := mkVoice {
  vtype : OscType;
  vfreq : jsval;
  vstart : option Q;
  vstop : option Q
}.

Definition voice_stop (t : Q) (v : Voice) : Voice :=
  mkVoice (vtype v) (vfreq v) (vstart v) (Some t).

Inductive ContextState : Type := running | suspended.

Inductive Error : Type :=
| InvalidFrequency (v : jsval)      (* new Error(`Invalid frequency: ${v}`) *)
| TypeError.                        (* thrown by the browser *)

Inductive Ret : Type :=
| RTimestamp (ms : Z)               (* Date.now() *)
| RNull
| RUndefined.

Inductive Outcome : Type :=
| Resolved (r : Ret)
| Rejected (e : Error).

Inductive Level : Type := LInfo | LLog | LWarn.

Inductive Call : Type :=
| CallEnsure
| CallPlay (frequency : jsval)
| CallTransition (newFrequency : jsval)
| CallStop
| CallSetVolume (volume : jsnum)
| CallSetMute (muted : bool).

(** The rest of an [async] function after one of its [await]s. *)
Inductive Frame : Type :=
| EnsureAfterResume                          (* after [await audioContext.resume()] *)
| PlayAfterEnsure (frequency : jsval)        (* after [await ensureAudioContext()] *)
| PlayAfterStop (frequency : jsval)          (* after [await stopSound()] *)
| TransitionAfterEnsure (newFrequency : jsval)
| StopAfterFade                              (* after the 800 ms timer *)
| MuteAfterEnsure (muted : bool).

(** What a suspended call waits for. *)
Inductive Wait : Type :=
| Microtask (o : Outcome)     (* a promise that has already settled with [o] *)
| ResumePending               (* [audioContext.resume()] *)
| Sleep (due : Q).            (* [setTimeout(resolve, ...)], wall-clock ms *)

Record Task : Type := mkTask {
  tcall : Call;
  twait : Wait;
  tframes : list Frame
}.

(** The callback of [transitionFrequency]'s [setTimeout]: it holds the old
    oscillator. *)
Record Timer : Type := mkTimer {
  tdue : Q;
  tvoice : nat
}.

(** What the browser answers during one step. *)
Record Dev : Type := mkDev {
  has_AudioContext : bool;    (* window.AudioContext || window.webkitAudioContext *)
  starts_suspended : bool;    (* state of a context that has just been made *)
  resume_ok : bool;           (* resume() resolves *)
  stop_ok : bool;             (* OscillatorNode.stop does not throw *)
  disconnect_ok : bool;       (* AudioNode.disconnect does not throw *)
  storage_ok : bool           (* localStorage does not throw *)
}.

Record World : Type := mkWorld {
  (* module-level variables of messenger.js *)
  audioContext : option ContextState;
  gainNode : option AudioParam;
  oscillator : option nat;
  isPlaying : bool;
  (* the browser *)
  voices : list Voice;                     (* every oscillator made so far *)
  connected : gset nat;                    (* oscillators connected to gainNode *)
  timers : list Timer;
  tasks : list Task;
  tol_volume : option string;              (* localStorage['tol_volume'] *)
  console : list (Level * string);
  audioClock : Q;                          (* audioContext.currentTime, seconds *)
  wallClock : Z;                           (* Date.now(), milliseconds *)
  outcomes : list (Call * Outcome)         (* settled calls *)
}.

Definition set_audio (c : option ContextState) (g : option AudioParam) (w : World) : World :=
  mkWorld c g (oscillator w) (isPlaying w) (voices w) (connected w) (timers w)
    (tasks w) (tol_volume w) (console w) (audioClock w) (wallClock w) (outcomes w).

Definition set_gain (g : AudioParam) (w : World) : World :=
  set_audio (audioContext w) (Some g) w.

(** The browser changes the state of the context, if there is one. *)
Definition set_context_state (c : ContextState) (w : World) : World :=
  match audioContext w with
  | Some _ => set_audio (Some c) (gainNode w) w
  | None => w
  end.

Definition set_oscillator (o : option nat) (w : World) : World :=
  mkWorld (audioContext w) (gainNode w) o (isPlaying w) (voices w) (connected w)
    (timers w) (tasks w) (tol_volume w) (console w) (audioClock w) (wallClock w)
    (outcomes w).

Definition set_isPlaying (b : bool) (w : World) : World :=
  mkWorld (audioContext w) (gainNode w) (oscillator w) b (voices w) (connected w)
    (timers w) (tasks w) (tol_volume w) (console w) (audioClock w) (wallClock w)
    (outcomes w).

Definition set_voices (vs : list Voice) (w : World) : World :=
  mkWorld (audioContext w) (gainNode w) (oscillator w) (isPlaying w) vs (connected w)
    (timers w) (tasks w) (tol_volume w) (console w) (audioClock w) (wallClock w)
    (outcomes w).

Definition set_connected (c : gset nat) (w : World) : World :=
  mkWorld (audioContext w) (gainNode w) (oscillator w) (isPlaying w) (voices w) c
    (timers w) (tasks w) (tol_volume w) (console w) (audioClock w) (wallClock w)
    (outcomes w).

Definition set_timers (ts : list Timer) (w : World) : World :=
  mkWorld (audioContext w) (gainNode w) (oscillator w) (isPlaying w) (voices w)
    (connected w) ts (tasks w) (tol_volume w) (console w) (audioClock w)
    (wallClock w) (outcomes w).

Definition set_tasks (ts : list Task) (w : World) : World :=
  mkWorld (audioContext w) (gainNode w) (oscillator w) (isPlaying w) (voices w)
    (connected w) (timers w) ts (tol_volume w) (console w) (audioClock w)
    (wallClock w) (outcomes w).

Definition set_tol_volume (s : option string) (w : World) : World :=
  mkWorld (audioContext w) (gainNode w) (oscillator w) (isPlaying w) (voices w)
    (connected w) (timers w) (tasks w) s (console w) (audioClock w) (wallClock w)
    (outcomes w).

Definition log (l : Level) (msg : string) (w : World) : World :=
  mkWorld (audioContext w) (gainNode w) (oscillator w) (isPlaying w) (voices w)
    (connected w) (timers w) (tasks w) (tol_volume w) (console w ++ [(l, msg)])
    (audioClock w) (wallClock w) (outcomes w).

Definition set_clocks (a : Q) (t : Z) (w : World) : World :=
  mkWorld (audioContext w) (gainNode w) (oscillator w) (isPlaying w) (voices w)
    (connected w) (timers w) (tasks w) (tol_volume w) (console w) a t (outcomes w).

Definition add_outcome (c : Call) (o : Outcome) (w : World) : World :=
  mkWorld (audioContext w) (gainNode w) (oscillator w) (isPlaying w) (voices w)
    (connected w) (timers w) (tasks w) (tol_volume w) (console w) (audioClock w)
    (wallClock w) (outcomes w ++ [(c, o)]).

(** The page as loaded: no context, nothing playing. *)
Definition initial_world (stored : option string) (audio : Q) (wall : Z) : World :=
  mkWorld None None None false [] ∅ [] [] stored [] audio wall [].

(* ====================================================================== *)
(** ** infra/messenger.js: the audio engine *)
(* ====================================================================== *)

(** Where a piece of an [async] function ends: it returned or threw
    ([Done]), or it reached an [await] ([Await]) with the frames that run
    afterwards, innermost first. *)
Inductive Step : Type :=
| Done (o : Outcome)
| Await (wt : Wait) (k : list Frame).

(** [await callee()] inside a caller whose remainder is [k]. *)
Definition await_call (r : World * Step) (k : Frame) : World * Step :=
  match r with
  | (w, Done o) => (w, Await (Microtask o) [k])
  | (w, Await wt fs) => (w, Await wt (fs ++ [k]))
  end.

Definition fadeInTime : Q := 5 # 10.
Definition crossfadeTime : Q := 35 # 100.
Definition fadeTime : Q := 8 # 10.
Definition volumeRampTime : Q := 1 # 10.
Definition maxGain : Q := 3 # 10.

(** [getVolume]: [stored ? parseInt(stored, 10) : 75], and 75 when
    [localStorage] throws. *)
Definition read_volume (storage_works : bool) (stored : option string) : jsnum :=
  if storage_works then
    match stored with
    | Some (String c r) => parseInt10 (String c r)
    | Some EmptyString | None => Fin 75
    end
  else Fin 75.

Definition getVolume (d : Dev) (w : World) : jsnum :=
  read_volume (storage_ok d) (tol_volume w).

(** [(storedVolume / 100) * 0.3] *)
Definition targetVolume (d : Dev) (w : World) : jsnum :=
  js_mul_lit (js_div_lit (getVolume d w) 100) maxGain.

(** [audioContext.createOscillator()] with [type = 'sine'] and
    [frequency.value = frequency]; the node gets the next free index. *)
Definition createOscillator (frequency : jsval) (w : World) : World :=
  set_oscillator (Some (length (voices w)))
    (set_voices (voices w ++ [mkVoice Sine frequency None None]) w).

(** [node.connect(gainNode)] and [node.start(t)] *)
Definition connect_start (id : nat) (t : Q) (w : World) : World :=
  set_voices (alter (fun v => mkVoice (vtype v) (vfreq v) (Some t) (vstop v)) id (voices w))
    (set_connected ({[id]} ∪ connected w) w).

(** [ensureAudioContext] up to its [await]. *)
Definition ensureAudioContext (d : Dev) (w : World) : World * Step :=
  match audioContext w with
  | None =>
      if has_AudioContext d then
        let g := set_param_value 0 (audioClock w) (mkParam 1 []) in
        if starts_suspended d
        then (set_audio (Some suspended) (Some g) w, Await ResumePending [EnsureAfterResume])
        else (set_audio (Some running) (Some g) w, Done (Resolved RUndefined))
      else (w, Done (Rejected TypeError))          (* new undefined() *)
  | Some suspended => (w, Await ResumePending [EnsureAfterResume])
  | Some running => (w, Done (Resolved RUndefined))
  end.

(** [ensureAudioContext] after [await audioContext.resume()]: a rejection
    is caught and logged. *)
Definition ensure_resumed (input : Outcome) (w : World) : World * Step :=
  match input with
  | Resolved _ => (set_context_state running w, Done (Resolved RUndefined))
  | Rejected _ =>
      (log LInfo "Audio context suspended, will resume on user interaction" w,
       Done (Resolved RUndefined))
  end.

(** The [catch] block of [stopSound]. *)
Definition stop_catch (w : World) : World * Step :=
  let w1 := log LWarn "Error stopping oscillator:" w in
  (set_isPlaying false (set_oscillator None w1), Done (Resolved (RTimestamp (wallClock w)))).

(** [stopSound] up to its [await]. *)
Definition stopSound (d : Dev) (w : World) : World * Step :=
  match oscillator w, isPlaying w with
  | Some _, true =>
      match audioContext w, gainNode w with
      | Some _, Some g =>
          let now := audioClock w in
          let g1 := setValueAtTime (param_value g now) now g in
          match linearRampToValueAtTime (Fin 0) (now + fadeTime) g1 with
          | Some g2 =>
              (set_gain g2 w,
               Await (Sleep (inject_Z (wallClock w) + fadeTime * 1000)) [StopAfterFade])
          | None => stop_catch (set_gain g1 w)
          end
      | _, _ => stop_catch w                        (* property of null *)
      end
  | _, _ => (w, Done (Resolved RNull))
  end.

(** [stopSound] after the fade. *)
Definition stop_finish (d : Dev) (w : World) : World * Step :=
  match oscillator w with
  | Some o =>
      if stop_ok d then
        let w1 := set_voices (alter (voice_stop (audioClock w)) o (voices w)) w in
        if disconnect_ok d then
          let w2 := set_connected (connected w1 ∖ {[o]}) w1 in
          (set_isPlaying false (set_oscillator None w2),
           Done (Resolved (RTimestamp (wallClock w))))
        else stop_catch w1
      else stop_catch w
  | None => (set_isPlaying false w, Done (Resolved (RTimestamp (wallClock w))))
  end.

(** [playFrequency] from [oscillator = audioContext.createOscillator()] to
    its [return]. *)
Definition play_body (d : Dev) (frequency : jsval) (w : World) : World * Step :=
  match audioContext w with
  | None => (w, Done (Rejected TypeError))
  | Some _ =>
      let id := length (voices w) in
      let w1 := createOscillator frequency w in
      match gainNode w1 with
      | None => (w1, Done (Rejected TypeError))     (* connect(null) *)
      | Some g =>
          let now := audioClock w1 in
          let w2 := connect_start id now w1 in
          let g1 := setValueAtTime 0 now g in
          match linearRampToValueAtTime (targetVolume d w2) (now + fadeInTime) g1 with
          | None => (set_gain g1 w2, Done (Rejected TypeError))
          | Some g2 =>
              (set_isPlaying true (set_gain g2 w2),
               Done (Resolved (RTimestamp (wallClock w))))
          end
      end
  end.

(** [playFrequency] up to [await ensureAudioContext()]. *)
Definition playFrequency (d : Dev) (frequency : jsval) (w : World) : World * Step :=
  if negb (isValidFrequency frequency) then (w, Done (Rejected (InvalidFrequency frequency)))
  else await_call (ensureAudioContext d w) (PlayAfterEnsure frequency).

(** [playFrequency] after [await ensureAudioContext()]. *)
Definition play_ensured (d : Dev) (frequency : jsval) (w : World) : World * Step :=
  match oscillator w with
  | Some _ => await_call (stopSound d w) (PlayAfterStop frequency)
  | None => play_body d frequency w
  end.

(** [transitionFrequency] after [await ensureAudioContext()]. *)
Definition transition_body (d : Dev) (newFrequency : jsval) (w : World) : World * Step :=
  match audioContext w, oscillator w with
  | Some _, Some oldOscillator =>
      let now := audioClock w in
      let w0 := log LLog "Crossfading" w in
      let id := length (voices w0) in
      let w1 := createOscillator newFrequency w0 in
      match gainNode w1 with
      | None => (w1, Done (Rejected TypeError))
      | Some g =>
          let w2 := connect_start id now w1 in
          let currentGain := param_value g now in
          let g1 := setValueAtTime currentGain now g in
          match linearRampToValueAtTime (Fin 0) (now + crossfadeTime / 2) g1 with
          | None => (set_gain g1 w2, Done (Rejected TypeError))
          | Some g2 =>
              match linearRampToValueAtTime (targetVolume d w2) (now + crossfadeTime) g2 with
              | None => (set_gain g2 w2, Done (Rejected TypeError))
              | Some g3 =>
                  let w3 := set_gain g3 w2 in
                  let w4 :=
                    if stop_ok d
                    then set_voices (alter (voice_stop (now + crossfadeTime / 2))
                                       oldOscillator (voices w3)) w3
                    else log LWarn "Error stopping old oscillator:" w3 in
                  let w5 :=
                    set_timers (timers w4 ++
                      [mkTimer (inject_Z (wallClock w4) + ((crossfadeTime / 2) * 1000 + 100))
                         oldOscillator]) w4 in
                  (log LLog "New oscillator playing" (set_isPlaying true w5),
                   Done (Resolved RUndefined))
              end
          end
      end
  | _, _ => (w, Done (Rejected TypeError))          (* property of null *)
  end.

(** [transitionFrequency] up to its [await]. *)
Definition transitionFrequency (d : Dev) (newFrequency : jsval) (w : World) : World * Step :=
  if negb (isValidFrequency newFrequency)
  then (w, Done (Rejected (InvalidFrequency newFrequency)))
  else
    match oscillator w, isPlaying w with
    | Some _, true => await_call (ensureAudioContext d w) (TransitionAfterEnsure newFrequency)
    | _, _ => playFrequency d newFrequency w
    end.

(** The callback [transitionFrequency] gives to [setTimeout]. *)
Definition cleanup (d : Dev) (oldOscillator : nat) (w : World) : World :=
  if disconnect_ok d
  then log LLog "Old oscillator disconnected"
         (set_connected (connected w ∖ {[oldOscillator]}) w)
  else log LWarn "Error disconnecting old oscillator:" w.

(** [Math.max(0, Math.min(100, volume)) / 100 * 0.3] *)
Definition audioVolume (volume : jsnum) : jsnum :=
  js_mul_lit (js_div_lit (Math_max (Fin 0) (Math_min (Fin 100) volume)) 100) maxGain.

(** [setVolume]; it is not [async], [Done (Rejected e)] stands for a
    thrown [e]. *)
Definition setVolume (d : Dev) (volume : jsnum) (w : World) : World * Step :=
  match gainNode w with
  | None => (w, Done (Resolved RUndefined))
  | Some g =>
      let now := match audioContext w with Some _ => audioClock w | None => 0%Q end in
      let g1 := setValueAtTime (param_value g now) now g in
      match linearRampToValueAtTime (audioVolume volume) (now + volumeRampTime) g1 with
      | None => (set_gain g1 w, Done (Rejected TypeError))
      | Some g2 =>
          let w1 := set_gain g2 w in
          (if storage_ok d
           then set_tol_volume (Some (number_toString volume)) w1
           else log LWarn "Could not save volume:" w1,
           Done (Resolved RUndefined))
      end
  end.

Definition getIsPlaying (w : World) : bool := isPlaying w.

Definition getAudioTime (w : World) : option Q :=
  match audioContext w with Some _ => Some (audioClock w) | None => None end.

(** [setMuteState] after [await ensureAudioContext()]. *)
Definition mute_body (muted : bool) (w : World) : World * Step :=
  match gainNode w with
  | Some g =>
      (set_gain (set_param_value (if muted then 0 else 15 # 100) (audioClock w) g) w,
       Done (Resolved RUndefined))
  | None => (w, Done (Rejected TypeError))
  end.

Definition setMuteState (d : Dev) (muted : bool) (w : World) : World * Step :=
  await_call (ensureAudioContext d w) (MuteAfterEnsure muted).

(** One frame, given how the promise it awaited settled.  Only
    [ensureAudioContext] has a [try] around its [await]; elsewhere a
    rejection is thrown on. *)
Definition run_frame (d : Dev) (f : Frame) (input : Outcome) (w : World) : World * Step :=
  match f, input with
  | EnsureAfterResume, _ => ensure_resumed input w
  | StopAfterFade, _ => stop_finish d w
  | _, Rejected e => (w, Done (Rejected e))
  | PlayAfterEnsure frequency, _ => play_ensured d frequency w
  | PlayAfterStop frequency, _ => play_body d frequency w
  | TransitionAfterEnsure newFrequency, _ => transition_body d newFrequency w
  | MuteAfterEnsure muted, _ => mute_body muted w
  end.

(** Run the frames of a woken task until one of them awaits again or the
    outermost returns. *)
Fixpoint resume (d : Dev) (fs : list Frame) (input : Outcome) (w : World) : World * Step :=
  match fs with
  | [] => (w, Done input)
  | f :: rest =>
      match run_frame d f input w with
      | (w', Done o) => resume d rest o w'
      | (w', Await wt fs') => (w', Await wt (fs' ++ rest))
      end
  end.

Definition invoke (d : Dev) (c : Call) (w : World) : World * Step :=
  match c with
  | CallEnsure => ensureAudioContext d w
  | CallPlay frequency => playFrequency d frequency w
  | CallTransition newFrequency => transitionFrequency d newFrequency w
  | CallStop => stopSound d w
  | CallSetVolume volume => setVolume d volume w
  | CallSetMute muted => setMuteState d muted w
  end.

(* ====================================================================== *)
(** ** The event loop *)
(* ====================================================================== *)

Inductive Action : Type :=
| Invoke (c : Call)          (* the page calls an exported function *)
| Resume (i : nat)           (* the promise task [i] awaits has settled *)
| Fire (j : nat)             (* timer [j] runs its callback *)
| Tick (ms : N).             (* time passes *)

Definition settle (c : Call) (r : World * Step) : World :=
  match r with
  | (w, Done o) => add_outcome c o w
  | (w, Await wt fs) => set_tasks (tasks w ++ [mkTask c wt fs]) w
  end.

(** Can the task be woken now, and with what? *)
Definition wake (d : Dev) (wt : Wait) (w : World) : option Outcome :=
  match wt with
  | Microtask o => Some o
  | ResumePending => Some (if resume_ok d then Resolved RUndefined else Rejected TypeError)
  | Sleep due => if Qle_bool due (inject_Z (wallClock w)) then Some (Resolved RUndefined) else None
  end.

Definition step (d : Dev) (a : Action) (w : World) : World :=
  match a with
  | Invoke c => settle c (invoke d c w)
  | Resume i =>
      match tasks w !! i with
      | Some t =>
          match wake d (twait t) w with
          | Some input =>
              settle (tcall t) (resume d (tframes t) input (set_tasks (delete i (tasks w)) w))
          | None => w
          end
      | None => w
      end
  | Fire j =>
      match timers w !! j with
      | Some tm =>
          if Qle_bool (tdue tm) (inject_Z (wallClock w))
          then cleanup d (tvoice tm) (set_timers (delete j (timers w)) w)
          else w
      | None => w
      end
  | Tick ms =>
      set_clocks
        (match audioContext w with
         | Some running => audioClock w + inject_Z (Z.of_N ms) / 1000
         | _ => audioClock w
         end)%Q
        (wallClock w + Z.of_N ms) w
  end.

Fixpoint run (sched : list (Dev * Action)) (w : World) : World :=
  match sched with
  | [] => w
  | (d, a) :: rest => run rest (step d a w)
  end.

From Stdlib Require Import DecimalPos.
From stdpp Require Import strings.

Local Open Scope Z_scope.

(* ====================================================================== *)
(** ** core/pure.js: the table of neteru and its accessors *)
(* ====================================================================== *)

(** [a >= b] and [a <= b] on numbers: false as soon as one side is NaN. *)
Definition js_ge (a b : jsnum) : bool :=
  match a, b with
  | NaN, _ | _, NaN => false
  | _, _ => negb (js_lt a b)
  end.

Definition js_le (a b : jsnum) : bool := js_ge b a.

(** [Number.isInteger(n)] *)
Definition Number_isInteger (n : jsnum) : bool :=
  match n with
  | Fin q => Qnum q mod Z.pos (Qden q) =? 0
  | _ => false
  end.

(** [isNaN(n)] for a number. *)
Definition isNaN (n : jsnum) : bool :=
  match n with NaN => true | _ => false end.

(** An entry of [PAUTTI_NETERU].  The field [id] is called [nid] here; the
    field [symbol], a single glyph outside ASCII, is left out. *)
Record Neter : Type := mkNeter {
  nid : Z;
  sphere : Z;
  name : string;
  title : string;
  frequency : Z;
  chakra : string;
  color : Z;
  teaching : string
}.

(** The object [PAUTTI_NETERU]: its keys are 0 to 10, in this order. *)
Definition PAUTTI_NETERU : list Neter :=
  [ mkNeter 0 0 "Amun-Nun" "The Hidden One" 432 "Crown + Beyond" 0x1a0033
      "Unmanifested source of all creation, infinite potential.";
    mkNeter 1 1 "Ra-Atum" "The Self-Created" 396 "Crown" 0xffdd44
      "Divine consciousness awakening to itself.";
    mkNeter 2 2 "Tehuti" "Divine Wisdom" 417 "Third Eye" 0x4488ff
      "Cosmic intelligence and the power of the word.";
    mkNeter 3 3 "Seker" "The Light in Darkness" 528 "Throat" 0x00ff88
      "Hidden life force waiting to emerge from stillness.";
    mkNeter 4 4 "Maat" "Truth & Justice" 639 "Heart" 0xff6b9d
      "Divine order, balance, and righteous living.";
    mkNeter 5 5 "Heru-Khuti" "Karma's Guardian" 741 "Solar Plexus" 0xff9933
      "The enforcer of cosmic law and karmic balance.";
    mkNeter 6 6 "Heru" "The Will" 852 "Solar Plexus" 0xffaa00
      "Individual choice and the power to act.";
    mkNeter 7 7 "Het-Heru" "Joy & Emotion" 963 "Sacral" 0xff66cc
      "Love, beauty, and emotional nourishment.";
    mkNeter 8 8 "Aset" "The Healer" 174 "Throat + Heart" 0x66ddff
      "Intuitive wisdom and the power to restore.";
    mkNeter 9 9 "Asar" "Resurrection" 285 "Root + Heart" 0x00cc66
      "Death, rebirth, and eternal transformation.";
    mkNeter 10 10 "Geb" "Earth Foundation" 111 "Root" 0x8b6914
      "Physical manifestation and grounded presence." ].

(** [PAUTTI_NETERU[k]] for an integer [k]: [None] is [undefined]. *)
Definition neter_at (k : Z) : option Neter :=
  if k <? 0 then None else PAUTTI_NETERU !! Z.to_nat k.

(** [{ id, ...entry }]: the entry's own [id] is written after the given
    one and wins.  An [undefined] entry spreads to nothing, which leaves
    an object with the field [id] alone: [SoloId]. *)
Inductive NeterObject : Type :=
| Full (n : Neter)
| SoloId (id : Z).

Definition with_id (id : Z) (entry : option Neter) : NeterObject :=
  match entry with
  | Some n => Full n
  | None => SoloId id
  end.

(** [typeof id === 'number' && id >= 0 && id <= 10 && Number.isInteger(id)] *)
Definition isValidNeterId (id : jsval) : bool :=
  match id with
  | JNum n => js_ge n (Fin 0) && js_le n (Fin 10) && Number_isInteger n
  | _ => false
  end.

(** [getNeterById(id)]: [None] is [null].  A valid id is an integer, read
    here as the quotient of its fraction. *)
Definition getNeterById (id : jsval) : option NeterObject :=
  if isValidNeterId id then
    match id with
    | JNum (Fin q) => Some (with_id (Qnum q / Z.pos (Qden q)) (neter_at (Qnum q / Z.pos (Qden q))))
    | _ => None
    end
  else None.

(** [getDailyNeter(date)], given [day = date.getDate()].  [%] is the
    remainder that takes the sign of the dividend. *)
Definition getDailyNeter (day : Z) : NeterObject :=
  let neterId := Z.rem day 11 in
  with_id neterId (neter_at neterId).

(** [typeof color === 'number' && color >= 0x000000 && color <= 0xffffff] *)
Definition isValidColor (color : jsval) : bool :=
  match color with
  | JNum n => js_ge n (Fin 0) && js_le n (Fin 0xffffff)
  | _ => false
  end.

Definition hex_char (d : Z) : ascii :=
  match d with
  | 0 => "0" | 1 => "1" | 2 => "2" | 3 => "3" | 4 => "4" | 5 => "5"
  | 6 => "6" | 7 => "7" | 8 => "8" | 9 => "9" | 10 => "a" | 11 => "b"
  | 12 => "c" | 13 => "d" | 14 => "e" | _ => "f"
  end%char.

(** The hexadecimal digits of [n >= 0] written in front of [acc], least
    significant digit first; [fuel] bounds the number of digits. *)
Fixpoint hex_digits (fuel : nat) (n : Z) (acc : string) : string :=
  match fuel with
  | O => acc
  | S fuel' =>
      let acc' := String (hex_char (n mod 16)) acc in
      if n / 16 =? 0 then acc' else hex_digits fuel' (n / 16) acc'
  end.

(** [n.toString(16)] for an integer [n]: a number below [2^k] has at most
    [k] hexadecimal digits. *)
Definition toString16 (n : Z) : string :=
  let digits := hex_digits (S (Z.to_nat (Z.log2 (Z.abs n)))) (Z.abs n) EmptyString in
  if n <? 0 then String "-"%char digits else digits.

Fixpoint repeat_char (n : nat) (c : ascii) : string :=
  match n with
  | O => EmptyString
  | S n' => String c (repeat_char n' c)
  end.

(** [s.padStart(n, c)] for a one-character filler. *)
Definition padStart (n : nat) (c : ascii) (s : string) : string :=
  (repeat_char (n - String.length s) c ++ s)%string.

(** [colorToHex(color)] for an integer [color]: every colour of the table
    is one, and the digits of a fraction are not modelled. *)
Definition colorToHex (color : Z) : string :=
  if isValidColor (JNum (Fin (inject_Z color))) then
    String "#"%char (padStart 6 "0"%char (toString16 color))
  else "#000000"%string.

(* ====================================================================== *)
(** ** JSON values and [localStorage] *)
(* ====================================================================== *)

(** The values [JSON.parse] returns.  The objects the application stores
    are built from such values, so that [JSON.parse(JSON.stringify(v))] is
    [v] again.  An object is the finite map of its own properties; the
    order of the properties is not kept. *)
Inductive Json : Type :=
| JsonNull
| JsonBool (b : bool)
| JsonNum (q : Q)
| JsonStr (s : string)
| JsonArr (items : list Json)
| JsonObj (fields : gmap string Json).

(** A text kept under a key that is read with [JSON.parse]: the empty
    text, a text [JSON.parse] rejects, or a text that parses to [v]. *)
Inductive StoredText : Type :=
| Blank
| Malformed
| Parses (v : Json).

(** The four cells of [localStorage] the application uses besides
    [tol_volume]; [None] is a key that is not set. *)
Record Storage : Type := mkStorage {
  kemetic_practices : option StoredText;
  kemetic_journals : option StoredText;
  kemetic_last_neter : option string;
  neteru_settings_v1 : option StoredText
}.

(** What the browser decides at one call: does [getItem] return, does
    [setItem] return (a browser may refuse either, for instance when
    storage is disabled or full). *)
Record Access : Type := mkAccess {
  getItem_ok : bool;
  setItem_ok : bool
}.

(** [storageKeys.sessions] and [storageKeys.journals] *)
Inductive Key : Type :=
| storageKeys_sessions
| storageKeys_journals.

Definition getItem (key : Key) (st : Storage) : option StoredText :=
  match key with
  | storageKeys_sessions => kemetic_practices st
  | storageKeys_journals => kemetic_journals st
  end.

Definition setItem (key : Key) (text : StoredText) (st : Storage) : Storage :=
  match key with
  | storageKeys_sessions =>
      mkStorage (Some text) (kemetic_journals st) (kemetic_last_neter st) (neteru_settings_v1 st)
  | storageKeys_journals =>
      mkStorage (kemetic_practices st) (Some text) (kemetic_last_neter st) (neteru_settings_v1 st)
  end.

(** A call returns a value or throws. *)
Inductive Completion (A : Type) : Type :=
| Returns (a : A)
| Throws.

Arguments Returns {A} a.
Arguments Throws {A}.

(** The name of the array index [i]. *)
Definition index_key (i : nat) : string := NilZero.string_of_uint (Nat.to_uint i).

Fixpoint chars (s : string) : list Json :=
  match s with
  | EmptyString => []
  | String c r => JsonStr (String c EmptyString) :: chars r
  end.

(** The own enumerable properties [{ ...v }] copies: those of an object,
    the indices of an array or of a string, none for the other values. *)
Definition spread_props (v : Json) : gmap string Json :=
  match v with
  | JsonObj fields => fields
  | JsonArr items => list_to_map (imap (fun i x => (index_key i, x)) items)
  | JsonStr s => list_to_map (imap (fun i x => (index_key i, x)) (chars s))
  | _ => ∅
  end.

(** The elements [[...v]] takes from [v]: arrays and strings can be
    iterated, for the other values the spread throws a TypeError. *)
Definition iterate (v : Json) : option (list Json) :=
  match v with
  | JsonArr items => Some items
  | JsonStr s => Some (chars s)
  | _ => None
  end.

(* ====================================================================== *)
(** ** infra/messenger.js: sessions, journals and the last neter *)
(* ====================================================================== *)

(** [safeRead(key)]: console output is not modelled in this part. *)
Definition safeRead (a : Access) (key : Key) (st : Storage) : Json :=
  if getItem_ok a then
    match getItem key st with
    | Some (Parses v) => v
    | Some Malformed => JsonArr []            (* JSON.parse throws, caught *)
    | Some Blank | None => JsonArr []         (* raw is falsy *)
    end
  else JsonArr [].

(** [safeWrite(key, value)] *)
Definition safeWrite (a : Access) (key : Key) (value : Json) (st : Storage) : Storage * bool :=
  if setItem_ok a then (setItem key (Parses value) st, true) else (st, false).

(** [{ id: Date.now(), ...data, date: new Date().toISOString() }], where
    [now] is what [Date.now()] returns and [date] the ISO text of the
    moment. *)
Definition new_entry (now : Z) (date : string) (data : Json) : Json :=
  JsonObj (<["date"%string := JsonStr date]>
             (spread_props data ∪ {["id"%string := JsonNum (inject_Z now)]})).

(** [logSession(sessionData)] *)
Definition logSession (a : Access) (now : Z) (date : string) (sessionData : Json)
    (st : Storage) : Storage * Completion (list Json) :=
  let sessions := safeRead a storageKeys_sessions st in
  let entry := new_entry now date sessionData in
  match iterate sessions with
  | Some items =>
      let updated := take 50 (entry :: items) in
      (fst (safeWrite a storageKeys_sessions (JsonArr updated) st), Returns updated)
  | None => (st, Throws)
  end.

(** [saveJournalEntry(journalData)] *)
Definition saveJournalEntry (a : Access) (now : Z) (date : string) (journalData : Json)
    (st : Storage) : Storage * Completion (list Json) :=
  let journals := safeRead a storageKeys_journals st in
  let entry := new_entry now date journalData in
  match iterate journals with
  | Some items =>
      let updated := entry :: items in
      (fst (safeWrite a storageKeys_journals (JsonArr updated) st), Returns updated)
  | None => (st, Throws)
  end.

Definition loadSessions (a : Access) (st : Storage) : Json := safeRead a storageKeys_sessions st.

Definition loadJournals (a : Access) (st : Storage) : Json := safeRead a storageKeys_journals st.

(** [Number(v)]; the reading of a string is left to [StringToNumber]. *)
Definition Number (StringToNumber : string -> jsnum) (v : jsval) : jsnum :=
  match v with
  | JNum n => n
  | JStr s => StringToNumber s
  | JBool b => Fin (if b then 1 else 0)
  | JNull => Fin 0
  | JUndefined => NaN
  end.

(** [entry.id !== targetId]: [None] when reading [id] throws, which it
    does on [null]; values other than objects have no [id]. *)
Definition id_differs (targetId : jsnum) (entry : Json) : option bool :=
  match entry with
  | JsonNull => None
  | JsonObj fields =>
      match fields !! "id"%string, targetId with
      | Some (JsonNum q), Fin t => Some (negb (Qeq_bool q t))
      | _, _ => Some true
      end
  | _ => Some true
  end.

(** [items.filter(keep)] for a callback that may throw. *)
Fixpoint filter_entries (keep : Json -> option bool) (items : list Json) : option (list Json) :=
  match items with
  | [] => Some []
  | x :: r =>
      match keep x with
      | Some b =>
          match filter_entries keep r with
          | Some r' => Some (if b then x :: r' else r')
          | None => None
          end
      | None => None
      end
  end.

(** [deleteJournalEntry(entryId)]: only an array has a [filter] method. *)
Definition deleteJournalEntry (StringToNumber : string -> jsnum) (a : Access)
    (entryId : jsval) (st : Storage) : Storage * Completion (list Json) :=
  let journals := safeRead a storageKeys_journals st in
  let targetId := Number StringToNumber entryId in
  match journals with
  | JsonArr items =>
      match filter_entries (id_differs targetId) items with
      | Some updated =>
          (fst (safeWrite a storageKeys_journals (JsonArr updated) st), Returns updated)
      | None => (st, Throws)
      end
  | _ => (st, Throws)
  end.

(** [v.toString()]: [None] when it throws, on [undefined] and [null]. *)
Definition toString (v : jsval) : option string :=
  match v with
  | JNum n => Some (number_toString n)
  | JStr s => Some s
  | JBool b => Some (if b then "true" else "false")%string
  | JUndefined | JNull => None
  end.

(** [saveLastNeter(neterId)]: both [toString] and [setItem] are inside
    the [try]. *)
Definition saveLastNeter (a : Access) (neterId : jsval) (st : Storage) : Storage :=
  match toString neterId with
  | Some text =>
      if setItem_ok a then
        mkStorage (kemetic_practices st) (kemetic_journals st) (Some text) (neteru_settings_v1 st)
      else st
  | None => st
  end.

(** [loadLastNeter()]: [None] is [null]. *)
Definition loadLastNeter (a : Access) (st : Storage) : option jsnum :=
  if getItem_ok a then
    match kemetic_last_neter st with
    | Some stored =>
        let id := parseInt10 stored in
        if negb (isNaN id) && js_ge id (Fin 0) && js_le id (Fin 10) then Some id else None
    | None => None
    end
  else None.

(** The start of [init] in [app/commander.js]: the neter the page opens
    on, and the storage after it.  [None] stands for the TypeError of
    [startingNeter.name] on [null]. *)
Definition startingNeter (a a' : Access) (st : Storage) : Storage * option NeterObject :=
  match loadLastNeter a st with
  | Some lastNeterId => (st, getNeterById (JNum lastNeterId))
  | None =>
      match getNeterById (JNum (Fin 0)) with
      | Some n => (saveLastNeter a' (JNum (Fin 0)) st, Some n)
      | None => (st, None)
      end
  end.

(* ====================================================================== *)
(** ** core/settings.js *)
(* ====================================================================== *)

Definition DEFAULT_SETTINGS : gmap string Json :=
  {[ "autoplay"%string := JsonBool false;
     "fadeDuration"%string := JsonNum (8 # 10);
     "reduceEffects"%string := JsonBool false;
     "reduceMotion"%string := JsonBool false ]}.

(** [loadSettings()]: in [{ ...DEFAULT_SETTINGS, ...parsed }] a property
    of [parsed] wins. *)
Definition loadSettings (a : Access) (st : Storage) : gmap string Json :=
  if getItem_ok a then
    match neteru_settings_v1 st with
    | Some (Parses v) => spread_props v ∪ DEFAULT_SETTINGS
    | Some Malformed => DEFAULT_SETTINGS       (* JSON.parse throws, caught *)
    | Some Blank | None => DEFAULT_SETTINGS    (* saved is falsy *)
    end
  else DEFAULT_SETTINGS.

(** [saveSettings(settings)] *)
Definition saveSettings (a : Access) (settings : gmap string Json) (st : Storage) : Storage :=
  if setItem_ok a then
    mkStorage (kemetic_practices st) (kemetic_journals st) (kemetic_last_neter st)
      (Some (Parses (JsonObj settings)))
  else st.

(** The properties every object inherits from [Object.prototype]. *)
Definition Object_prototype : list string :=
  [ "constructor"; "__defineGetter__"; "__defineSetter__"; "hasOwnProperty";
    "__lookupGetter__"; "__lookupSetter__"; "isPrototypeOf";
    "propertyIsEnumerable"; "toString"; "valueOf"; "__proto__";
    "toLocaleString" ]%string.

Definition inherited (key : string) : bool :=
  existsb (String.eqb key) Object_prototype.

(** What reading a property gives: a value of the object's own, what
    [Object.prototype] has under that name (a function, or that object
    itself for [__proto__]), or [undefined]. *)
Inductive Property : Type :=
| Own (v : Json)
| Inherited
| Undefined.

(** [object[key]] for an object with the own properties [fields] whose
    prototype is [Object.prototype]: a literal, a parsed object, a
    spread. *)
Definition get_property (fields : gmap string Json) (key : string) : Property :=
  match fields !! key with
  | Some v => Own v
  | None => if inherited key then Inherited else Undefined
  end.

(** [object[key] = value] on such an object.  An own property is
    overwritten.  Otherwise [__proto__] finds the setter [Object.prototype]
    has for it, which makes no property; every other name gets a new own
    property. *)
Definition set_property (key : string) (value : Json) (fields : gmap string Json)
    : gmap string Json :=
  match fields !! key with
  | Some _ => <[key := value]> fields
  | None => if (key =? "__proto__")%string then fields else <[key := value]> fields
  end.

(** The prototype of an object after [object[key] = value]: the setter of
    [__proto__] replaces it when [value] is an object or [null]. *)
Inductive Prototype : Type :=
| ObjectPrototype
| Replaced (v : Json).

Definition set_prototype (key : string) (value : Json) (fields : gmap string Json)
    : Prototype :=
  match fields !! key, value with
  | None, (JsonNull | JsonArr _ | JsonObj _) =>
      if (key =? "__proto__")%string then Replaced value else ObjectPrototype
  | _, _ => ObjectPrototype
  end.

Record SettingsObject : Type := mkSettings {
  own : gmap string Json;
  prototype : Prototype
}.

(** [updateSetting(key, value)]: [JSON.stringify] writes the own
    properties. *)
Definition updateSetting (a : Access) (key : string) (value : Json) (st : Storage)
    : Storage * SettingsObject :=
  let settings := loadSettings a st in
  let updated := set_property key value settings in
  (saveSettings a updated st, mkSettings updated (set_prototype key value settings)).

(** [x ?? y] *)
Definition nullish_or (x y : Property) : Property :=
  match x with
  | Undefined | Own JsonNull => y
  | _ => x
  end.

(** [getSetting(key)] *)
Definition getSetting (a : Access) (key : string) (st : Storage) : Property :=
  let settings := loadSettings a st in
  nullish_or (get_property settings key) (get_property DEFAULT_SETTINGS key).

Definition getDefaultSettings : gmap string Json := DEFAULT_SETTINGS.

(* ====================================================================== *)
(** ** Navigation: core/pure.js state helpers and app/commander.js *)
(* ====================================================================== *)

(** The application state of [createInitialState].  Its field [isPlaying]
    is called [state_isPlaying] here, apart from the engine's variable of
    the same name. *)
Record AppState : Type := mkAppState {
  currentNeter : NeterObject;
  state_isPlaying : bool;
  isMuted : bool;
  sessionStart : option Z
}.

(** [createInitialState()], given the day of the month. *)
Definition createInitialState (day : Z) : AppState :=
  mkAppState (getDailyNeter day) false false None.

(** [updateNeterInState(state, neterId)] *)
Definition updateNeterInState (state : AppState) (neterId : jsval) : AppState :=
  match getNeterById neterId with
  | None => state
  | Some neter => mkAppState neter false (isMuted state) None
  end.

(** [neter.id] and [neter.frequency] *)
Definition object_id (o : NeterObject) : Z :=
  match o with Full n => nid n | SoloId id => id end.

Definition object_frequency (o : NeterObject) : jsval :=
  match o with
  | Full n => JNum (Fin (inject_Z (frequency n)))
  | SoloId _ => JUndefined
  end.

(** Whether a condition takes the value for true. *)
Definition truthy (v : Property) : bool :=
  match v with
  | Undefined | Own JsonNull => false
  | Own (JsonBool b) => b
  | Own (JsonNum q) => negb (Qeq_bool q 0)
  | Own (JsonStr s) => match s with EmptyString => false | _ => true end
  | Own (JsonArr _) | Own (JsonObj _) | Inherited => true
  end.

(** The engine call [selectNeter] goes on to await. *)
Inductive AudioPlan : Type :=
| PlanTransition (frequency : jsval)
| PlanStop
| PlanPlay (frequency : jsval)
| PlanNothing.

Record Selected : Type := mkSelected {
  sel_state : AppState;
  sel_storage : Storage;
  sel_plan : AudioPlan
}.

(** [selectNeter(neterId)] up to its [await]; the calls that draw the
    page are left out, they do not touch [state] or the storage.  [a] is
    what the browser decides for [saveLastNeter], [a'] for
    [getSetting]. *)
Definition selectNeter (a a' : Access) (neterId : jsval) (state : AppState) (st : Storage)
    : Selected :=
  let wasPlaying := state_isPlaying state in
  let state1 := updateNeterInState state neterId in
  let st1 := saveLastNeter a neterId st in
  let autoplayEnabled := truthy (getSetting a' "autoplay" st1) in
  let plan :=
    if wasPlaying && autoplayEnabled then
      PlanTransition (object_frequency (currentNeter state1))
    else if wasPlaying && negb autoplayEnabled then PlanStop
    else if negb wasPlaying && autoplayEnabled then
      PlanPlay (object_frequency (currentNeter state1))
    else PlanNothing in
  mkSelected state1 st1 plan.

(** [selectNeter] after its [await], given how the engine call settled
    and the [state] of that moment: [None] when the rejection is not
    caught. *)
Definition selectNeter_settled (plan : AudioPlan) (settled : Outcome) (state : AppState)
    : option AppState :=
  match plan, settled with
  | PlanTransition _, _ => Some state
  | PlanStop, Resolved _ =>
      Some (mkAppState (currentNeter state) false (isMuted state) None)
  | PlanStop, Rejected _ => None
  | PlanPlay _, Resolved r =>
      let timestamp := match r with RTimestamp ms => Some ms | _ => None end in
      Some (mkAppState (currentNeter state) true (isMuted state) timestamp)
  | PlanPlay _, Rejected _ => Some state
  | PlanNothing, _ => Some state
  end.

(** [handleNextNeter()] and [handlePrevNeter()] *)
Definition handleNextNeter (a a' : Access) (state : AppState) (st : Storage) : Selected :=
  let currentId := object_id (currentNeter state) in
  let nextId := if currentId =? 10 then 0 else currentId + 1 in
  selectNeter a a' (JNum (Fin (inject_Z nextId))) state st.

Definition handlePrevNeter (a a' : Access) (state : AppState) (st : Storage) : Selected :=
  let currentId := object_id (currentNeter state) in
  let prevId := if currentId =? 0 then 10 else currentId - 1 in
  selectNeter a a' (JNum (Fin (inject_Z prevId))) state st.

(* ====================================================================== *)
(** ** Vocabulary of the properties *)
(* ====================================================================== *)

(** The engine's own code touches neither the task queue nor the record of
    settled calls; only the event loop does. *)
Definition same_queue (w w' : World) : Prop :=
  tasks w' = tasks w /\ outcomes w' = outcomes w.

(** [o] is not [null]. *)
Definition isSome {A : Type} (o : option A) : bool :=
  match o with Some _ => true | None => false end.

(** What [localStorage] holds for the volume reads back as a number. *)
Definition stored_ok (w : World) : bool := is_finite (read_volume true (tol_volume w)).

(** [setVolume] is given a finite number (the page passes the slider's
    value); every other call is unrestricted. *)
Definition call_ok (c : Call) : bool :=
  match c with CallSetVolume v => is_finite v | _ => true end.

(** [call_ok], for the calls of a schedule. *)
Definition action_ok (a : Action) : bool :=
  match a with Invoke c => call_ok c | _ => true end.

(** The frames that follow [await ensureAudioContext()]. *)
Definition is_entry (f : Frame) : bool :=
  match f with
  | PlayAfterEnsure _ | TransitionAfterEnsure _ | MuteAfterEnsure _ => true
  | _ => false
  end.

(** The frame stacks the engine builds, with what they wait for. *)
Definition task_shape (wt : Wait) (fs : list Frame) : bool :=
  match wt, fs with
  | Microtask _, [k] => is_entry k
  | ResumePending, [EnsureAfterResume] => true
  | ResumePending, [EnsureAfterResume; k] => is_entry k
  | Sleep _, [StopAfterFade] => true
  | Sleep _, [StopAfterFade; PlayAfterStop _] => true
  | _, _ => false
  end.

(** What holds of the module's variables between any two steps:
    [isPlaying] is true exactly when there is a current oscillator, the
    context and the gain node are made together, an oscillator needs the
    context, and the stored volume is numeric. *)
Record Core (w : World) : Prop := mkCore {
  core_coupled : isPlaying w = isSome (oscillator w);
  core_graph : isSome (audioContext w) = isSome (gainNode w);
  core_osc_ctx : isSome (oscillator w) = true -> isSome (audioContext w) = true;
  core_stored : stored_ok w = true
}.

(** [Core], and every suspended call has one of the stacks of
    [task_shape]. *)
Record Consistent (w : World) : Prop := mkConsistent {
  cons_core : Core w;
  cons_tasks : Forall (fun t => task_shape (twait t) (tframes t) = true) (tasks w)
}.

(** Text that begins with a decimal digit. *)
Definition starts_digit (s : string) : Prop :=
  exists c r, s = String c r /\ is_Some (digit_of c).

(** The current oscillator, as a set. *)
Definition current (w : World) : gset nat :=
  match oscillator w with Some o => {[o]} | None => ∅ end.

(** The oscillators held by pending cleanup timers. *)
Definition retiring (w : World) : gset nat := list_to_set (tvoice <$> timers w).

(** No oscillator is connected without being current or awaiting its
    cleanup. *)
Definition Linked (w : World) : Prop := connected w ⊆ current w ∪ retiring w.

(** A browser whose [stop] and [disconnect] do not throw. *)
Definition conforming (d : Dev) : bool := stop_ok d && disconnect_ok d.

(** Not the invalid-frequency rejection. *)
Definition not_invalid (o : Outcome) : Prop :=
  match o with Rejected (InvalidFrequency _) => False | _ => True end.

(** [not_invalid], for what a suspended call awaits and for where a step
    ends. *)
Definition wait_clean (wt : Wait) : Prop :=
  match wt with Microtask o => not_invalid o | _ => True end.

Definition step_clean (s : Step) : Prop :=
  match s with Done o => not_invalid o | Await wt _ => wait_clean wt end.

(** A recorded [InvalidFrequency] rejection belongs to a [play] or
    [transition] call whose argument fails [isValidFrequency]. *)
Definition justified (co : Call * Outcome) : Prop :=
  match co with
  | (c, Rejected (InvalidFrequency v)) =>
      isValidFrequency v = false /\ (c = CallPlay v \/ c = CallTransition v)
  | _ => True
  end.

(** Every invalid-frequency rejection on record is [justified], and none
    is on its way inside a suspended call. *)
Record Clean (w : World) : Prop := mkClean {
  clean_outcomes : Forall justified (outcomes w);
  clean_tasks : Forall (fun t => wait_clean (twait t)) (tasks w)
}.












(** A browser on which everything works; the context starts running. *)
Definition good_device : Dev := mkDev true false true true true true.



(** A whole number of hertz. *)
Definition hz (n : Z) : jsval := JNum (Fin (inject_Z n)).

(** [await playFrequency(432)] *)
Definition play_432 : list (Dev * Action) :=
  [(good_device, Invoke (CallPlay (hz 432))); (good_device, Resume 0%nat)].

(** [play(432)], then [transition(528)] and [transition(639)] before the
    first cleanup timer is due. *)
Definition rapid_switch : list (Dev * Action) :=
  play_432 ++
  [(good_device, Invoke (CallTransition (hz 528))); (good_device, Resume 0%nat);
   (good_device, Invoke (CallTransition (hz 639))); (good_device, Resume 0%nat)].


(** The page as loaded at wall-clock time 1000, nothing stored. *)
Definition page_loaded : World := initial_world None 0 1000.

(** [rapid_switch], then both cleanup timers have run. *)
Definition switch_settled : list (Dev * Action) :=
  rapid_switch ++
  [(good_device, Tick 275); (good_device, Fire 0%nat); (good_device, Fire 0%nat)].

(** The page after [await ensureAudioContext()]. *)
Definition audio_ready : World := run [(good_device, Invoke CallEnsure)] page_loaded.

(** The page after [await playFrequency(432)]. *)
Definition playing_432 : World := run play_432 page_loaded.


Definition gain_432 : AudioParam :=
  match gainNode playing_432 with Some g => g | None => mkParam 1 [] end.



(** The frames that cannot stop the sound. *)
Definition calm_frame (f : Frame) : bool :=
  match f with
  | EnsureAfterResume | TransitionAfterEnsure _ | MuteAfterEnsure _ => true
  | _ => false
  end.

(** Every call but [playFrequency] and [stopSound]. *)
Definition calm_call (c : Call) : bool :=
  match c with
  | CallPlay _ | CallStop => false
  | CallSetVolume v => is_finite v
  | _ => true
  end.

Definition calm_action (a : Action) : bool :=
  match a with Invoke c => calm_call c | _ => true end.

Definition calm_tasks (w : World) : Prop :=
  Forall (fun t => forallb calm_frame (tframes t) = true) (tasks w).

(** A voice that has been started and not told to stop. *)
Definition voice_live (v : Voice) : bool := isSome (vstart v) && negb (isSome (vstop v)).

(** The current oscillator is the newest node, is connected and sounding;
    cleanup timers hold older nodes only. *)
Record Live (w : World) : Prop := mkLive {
  live_timers : Forall (fun tm => (tvoice tm < length (voices w))%nat) (timers w);
  live_current : forall o,
    oscillator w = Some o ->
    S o = length (voices w)
    /\ o ∈ connected w
    /\ (exists v, voices w !! o = Some v /\ voice_live v = true)
    /\ Forall (fun tm => (tvoice tm < o)%nat) (timers w)
}.

(** The number a string of decimal digits denotes, read after [acc]. *)
Fixpoint uint_acc (u : Decimal.uint) (acc : Z) : Z :=
  match u with
  | Decimal.Nil => acc
  | Decimal.D0 u => uint_acc u (10 * acc)
  | Decimal.D1 u => uint_acc u (10 * acc + 1)
  | Decimal.D2 u => uint_acc u (10 * acc + 2)
  | Decimal.D3 u => uint_acc u (10 * acc + 3)
  | Decimal.D4 u => uint_acc u (10 * acc + 4)
  | Decimal.D5 u => uint_acc u (10 * acc + 5)
  | Decimal.D6 u => uint_acc u (10 * acc + 6)
  | Decimal.D7 u => uint_acc u (10 * acc + 7)
  | Decimal.D8 u => uint_acc u (10 * acc + 8)
  | Decimal.D9 u => uint_acc u (10 * acc + 9)
  end.

(** The events hold the value [v] at time [t]: a [SetValue v t] comes
    after events that are not later than [t] and is followed, if at all,
    by an event later than [t]. *)
Definition pinned (v t : Q) (evs : list AutomationEvent) : Prop :=
  exists pre post,
    evs = pre ++ SetValue v t :: post /\
    Forall (fun x => Qle_bool (ev_time x) t = true) pre /\
    match post with
    | [] => True
    | x :: _ => Qle_bool (ev_time x) t = false
    end.

Definition hex_digit_of (c : ascii) : option Z :=
  let n := nat_of_ascii c in
  if ((48 <=? n)%nat && (n <=? 57)%nat)%bool then Some (Z.of_nat n - 48)
  else if ((97 <=? n)%nat && (n <=? 102)%nat)%bool then Some (Z.of_nat n - 87)
  else None.

(** The number a text of hexadecimal digits denotes, read after [acc]. *)
Fixpoint hex_value_from (s : string) (acc : Z) : option Z :=
  match s with
  | EmptyString => Some acc
  | String c r =>
      match hex_digit_of c with
      | Some d => hex_value_from r (16 * acc + d)
      | None => None
      end
  end.

Definition hex_value (s : string) : option Z := hex_value_from s 0.

(** One call of [logSession]: what the browser decides, the clock and the
    argument. *)
Record LogCall : Type := mkLogCall {
  log_access : Access;
  log_now : Z;
  log_date : string;
  log_data : Json
}.

(** Calls of [logSession] one after the other; the flag tells whether
    every call returned. *)
Fixpoint log_all (calls : list LogCall) (st : Storage) : Storage * bool :=
  match calls with
  | [] => (st, true)
  | c :: rest =>
      match logSession (log_access c) (log_now c) (log_date c) (log_data c) st with
      | (st', Returns _) => log_all rest st'
      | (st', Throws) => (st', false)
      end
  end.

(** The sessions cell is unset or holds a list of at most [n] entries. *)
Definition listed (n : nat) (st : Storage) : Prop :=
  match kemetic_practices st with
  | None => True
  | Some (Parses (JsonArr l)) => (length l <= n)%nat
  | Some _ => False
  end.

Definition stored_count (st : Storage) : nat :=
  match kemetic_practices st with
  | Some (Parses (JsonArr l)) => length l
  | _ => 0%nat
  end.

Definition reliable (a : Access) : Prop := getItem_ok a = true /\ setItem_ok a = true.

(** The entry is an object whose [id] is the number [t]. *)
Definition has_id (t : Q) (entry : Json) : Prop :=
  exists fields q, entry = JsonObj fields /\ fields !! "id"%string = Some (JsonNum q) /\ (q == t)%Q.

(** The entries a filter with [id_differs] keeps when it does not throw. *)
Definition keeps (targetId : jsnum) (entry : Json) : bool :=
  match id_differs targetId entry with
  | Some false => false
  | _ => true
  end.

(** [play(432)], a crossfade to 528 Hz, a volume change, and the cleanup
    of the old voice. *)
Definition crossfade_session : list (Dev * Action) :=
  [(good_device, Invoke (CallTransition (hz 528))); (good_device, Resume 0%nat);
   (good_device, Invoke (CallSetVolume (Fin 40))); (good_device, Tick 275);
   (good_device, Fire 0%nat)].

(** A browser whose storage works, and one whose storage throws. *)
Definition storage_works : Access := mkAccess true true.

Definition storage_blocked : Access := mkAccess false false.

(** Nothing stored yet. *)
Definition new_user : Storage := mkStorage None None None None.

(** What [handleStopSound] logs after twelve seconds of 528 Hz. *)
Definition session_528 : Json :=
  JsonObj {[ "neterId"%string := JsonNum 3;
             "neterName"%string := JsonStr "Seker";
             "duration"%string := JsonNum 12 ]}.

Definition note (text : string) : Json :=
  JsonObj {[ "text"%string := JsonStr text ]}.

(** Two journal entries, written at times 1000 and 2000. *)
Definition two_notes : Storage :=
  fst (saveJournalEntry storage_works 2000 "1970-01-01T00:00:02.000Z" (note "second")
         (fst (saveJournalEntry storage_works 1000 "1970-01-01T00:00:01.000Z" (note "first")
                 new_user))).

Definition first_note : Json := new_entry 1000 "1970-01-01T00:00:01.000Z" (note "first").

Definition second_note : Json := new_entry 2000 "1970-01-01T00:00:02.000Z" (note "second").

(** Both list cells hold an object instead of a list. *)
Definition foreign_storage : Storage :=
  mkStorage (Some (Parses (JsonObj ∅))) (Some (Parses (JsonObj ∅))) None None.

Definition torn_storage : Storage := mkStorage (Some Malformed) None None None.

(** [state.currentNeter] is an entry of the table. *)
Definition on_table (state : AppState) : Prop :=
  exists n, currentNeter state = Full n /\ In n PAUTTI_NETERU.

(** The state [createInitialState] makes on the 15th of a month. *)
Definition first_visit : AppState := createInitialState 15.

(** The same state while a tone started at time 1000 is playing. *)
Definition listening (state : AppState) : AppState :=
  mkAppState (currentNeter state) true (isMuted state) (Some 1000).

(** Autoplay switched on in the settings. *)
Definition autoplay_on : Storage :=
  fst (updateSetting storage_works "autoplay" (JsonBool true) new_user).

(* ====================================================================== *)
(** ** Proofs *)
(* ====================================================================== *)

#[local] Set Warnings "-clear-no-such-hyp".

Lemma Qlt_bool_true (a b : Q) : Qlt_bool a b = true <-> (a < b)%Q.
Proof.
  unfold Qlt_bool. rewrite negb_true_iff. split.
  - intros H. apply Qnot_le_lt. intros Hle. apply Qle_bool_iff in Hle. congruence.
  - intros H. destruct (Qle_bool b a) eqn:E; [|reflexivity].
    apply Qle_bool_iff in E. exfalso. apply (Qlt_not_le _ _ H E).
Qed.

Lemma Qlt_bool_false (a b : Q) : Qlt_bool a b = false <-> (b <= a)%Q.
Proof.
  unfold Qlt_bool. rewrite negb_false_iff. apply Qle_bool_iff.
Qed.

(** The clamped percentage [Math.max(0, Math.min(100, q))]. *)
Lemma clamp_finite (q : Q) :
  exists c : Q, Math_max (Fin 0) (Math_min (Fin 100) (Fin q)) = Fin c
    /\ (c == Qmax 0 (Qmin 100 q))%Q /\ (0 <= c)%Q /\ (c <= 100)%Q.
Proof.
  unfold Math_min. simpl. destruct (Qlt_bool q 100) eqn:E1.
  - apply Qlt_bool_true in E1. unfold Math_max. simpl.
    destruct (Qlt_bool 0 q) eqn:E2.
    + apply Qlt_bool_true in E2. exists q. split; [reflexivity|].
      rewrite (Q.min_r 100 q) by lra. rewrite Q.max_r by lra. lra.
    + apply Qlt_bool_false in E2. exists 0%Q. split; [reflexivity|].
      rewrite (Q.min_r 100 q) by lra. rewrite Q.max_l by lra. lra.
  - apply Qlt_bool_false in E1. unfold Math_max. simpl.
    exists 100%Q. split; [reflexivity|].
    rewrite (Q.min_l 100 q) by lra. rewrite Q.max_r by lra. lra.
Qed.

Lemma audioVolume_ceiling (percent : Q) :
  exists g : Q,
    audioVolume (Fin percent) = Fin g
    /\ (g == Qmax 0 (Qmin 100 percent) / 100 * (3 # 10))%Q
    /\ (0 <= g)%Q /\ (g <= 3 # 10)%Q.
Proof.
  destruct (clamp_finite percent) as (c & Hc & Hceq & H0 & H100).
  exists (c / 100 * maxGain)%Q. unfold audioVolume. rewrite Hc.
  split; [reflexivity|]. unfold maxGain.
  split; [rewrite Hceq; reflexivity|].
  assert (Hlin : (c / 100 * (3 # 10) == c * (3 # 1000))%Q) by (field; discriminate).
  split; rewrite Hlin; lra.
Qed.

(** C8.  The gain [setVolume] ramps to is the percentage clamped to
    [0, 100], divided by 100, times 0.3: between 0 and 0.3, and equal to
    percent / 100 * 0.3 for a percentage already in range. *)
Theorem C8_gain_ceiling (percent : Q) :
  exists g : Q,
    audioVolume (Fin percent) = Fin g
    /\ (g == Qmax 0 (Qmin 100 percent) / 100 * (3 # 10))%Q
    /\ (0 <= g)%Q /\ (g <= 3 # 10)%Q
    /\ ((0 <= percent)%Q -> (percent <= 100)%Q -> (g == percent / 100 * (3 # 10))%Q)
    /\ forall (d : Dev) (w : World) (p : AudioParam),
         gainNode w = Some p ->
         let now := match audioContext w with Some _ => audioClock w | None => 0%Q end in
         gainNode (fst (setVolume d (Fin percent) w)) =
           Some (mkParam (initial p)
                   (schedule (LinearRamp g (now + volumeRampTime))
                      (schedule (SetValue (param_value p now) now) (events p)))).
Proof.
  destruct (audioVolume_ceiling percent) as (g & Hg & Heq & H0 & H3).
  exists g. repeat (split; [done|]). split.
  - intros Hp0 Hp100. rewrite Heq.
    rewrite (Q.min_r 100 percent) by lra. rewrite Q.max_r by lra. reflexivity.
  - intros d w p Hp. unfold setVolume. rewrite Hp, Hg.
    cbn [linearRampToValueAtTime]. by destruct (storage_ok d).
Qed.

Ltac wsimpl :=
  cbn [audioContext gainNode oscillator isPlaying voices connected timers tasks
       tol_volume console audioClock wallClock outcomes
       set_audio set_gain set_oscillator set_isPlaying set_voices
       set_connected set_timers set_tasks set_tol_volume log set_clocks add_outcome
       createOscillator connect_start fst snd] in *.

Ltac engine_unfold :=
  unfold invoke, run_frame, playFrequency, transitionFrequency, play_ensured,
    play_body, transition_body, stopSound, stop_finish, stop_catch,
    ensureAudioContext, ensure_resumed, setVolume, setMuteState, mute_body,
    await_call, cleanup, set_context_state in *.

Ltac engine_cases :=
  repeat first
    [ progress engine_unfold
    | case_match; simplify_eq; wsimpl; try done ].

Lemma invoke_same_queue d c w w' s : invoke d c w = (w', s) -> same_queue w w'.
Proof. intros H. unfold same_queue. engine_cases. Qed.

Lemma run_frame_same_queue d f input w w' s :
  run_frame d f input w = (w', s) -> same_queue w w'.
Proof. intros H. unfold same_queue. engine_cases. Qed.

Lemma read_volume_finite b st :
  is_finite (read_volume true st) = true -> exists q, read_volume b st = Fin q.
Proof.
  intros H. destruct b; [|by exists 75%Q].
  destruct (read_volume true st); try discriminate. by eexists.
Qed.

Ltac use_stored :=
  match goal with
  | H : is_finite (read_volume true ?st) = true |- context [read_volume ?b ?st] =>
      let q := fresh "q" in let Hq := fresh "Hq" in
      destruct (read_volume_finite b st H) as [q Hq]; rewrite Hq in *
  | H : is_finite (read_volume true ?st) = true, H' : context [read_volume ?b ?st] |- _ =>
      lazymatch b with true => fail | _ => idtac end;
      let q := fresh "q" in let Hq := fresh "Hq" in
      destruct (read_volume_finite b st H) as [q Hq]; rewrite Hq in *
  end.

Ltac engine_open :=
  repeat (progress engine_unfold);
  unfold targetVolume, getVolume, stored_ok in *; wsimpl;
  try use_stored;
  cbn [js_mul_lit js_div_lit linearRampToValueAtTime isSome] in *.

Ltac core_start :=
  match goal with
  | Hc : Core ?w |- _ => destruct w; destruct Hc as [? ? ? ?]; engine_open
  end.

Ltac core_finish :=
  try use_stored;
  cbn [isSome js_mul_lit js_div_lit linearRampToValueAtTime] in *;
  repeat match goal with
         | H : true = true -> _ |- _ => specialize (H eq_refl)
         | H : ?a = ?a -> _ |- _ => specialize (H eq_refl)
         end;
  try discriminate; try done;
  try (split; [by constructor; wsimpl; cbn [isSome]|]);
  try done.

Lemma run_frame_core d f input w w' s :
  Core w ->
  run_frame d f input w = (w', s) ->
  Core w'
  /\ match s with
     | Done _ => True
     | Await wt fs => is_entry f = true /\ task_shape wt (fs ++ []) = true
     end.
Proof.
  intros Hc H. core_start. engine_cases. all: core_finish.
Qed.

Lemma uint_starts_digit u : starts_digit (NilZero.string_of_uint u).
Proof. destruct u; do 2 eexists; (split; [reflexivity|by eexists]). Qed.

Lemma starts_digit_app s t : starts_digit s -> starts_digit (s ++ t)%string.
Proof. intros (c & r & -> & Hc). by exists c, (r ++ t)%string. Qed.

Lemma read_digits_some s z : is_Some (read_digits s (Some z)).
Proof.
  revert z. induction s as [|c r IH]; intros z; cbn [read_digits]; [by eexists|].
  destruct (digit_of c); [apply IH|by eexists].
Qed.

Lemma digit_not_special c :
  is_Some (digit_of c) ->
  is_ws c = false /\ c <> "-"%char /\ c <> "+"%char.
Proof.
  intros [z Hz]. repeat split.
  - unfold digit_of, is_ws in *. destruct (nat_of_ascii c) as [|n]; [done|].
    do 13 (destruct n as [|n]; [done|]).
    do 19 (destruct n as [|n]; [done|]). done.
  - intros ->. discriminate.
  - intros ->. discriminate.
Qed.

Lemma parse_digits_finite s : starts_digit s -> is_finite (parseInt10 s) = true.
Proof.
  intros (c & r & -> & Hc). destruct (digit_not_special c Hc) as (Hws & Hm & Hp).
  unfold parseInt10. cbn [skip_ws]. rewrite Hws.
  assert (Hbody : is_Some (read_digits (String c r) None)).
  { cbn [read_digits]. destruct Hc as [z ->]. apply read_digits_some. }
  destruct c as [[] [] [] [] [] [] [] []]; try done;
    by destruct Hbody as [z ->].
Qed.

Lemma parse_negative_finite s :
  starts_digit s -> is_finite (parseInt10 (String "-" s)) = true.
Proof.
  intros (c & r & -> & Hc). unfold parseInt10. cbn [skip_ws].
  change (is_ws "-") with false. cbn iota.
  assert (Hbody : is_Some (read_digits (String c r) None)).
  { cbn [read_digits]. destruct Hc as [z ->]. apply read_digits_some. }
  by destruct Hbody as [z ->].
Qed.

Lemma int_starts_digit z : 0 <= z -> starts_digit (NilZero.string_of_int (Z.to_int z)).
Proof.
  intros H. destruct z as [|p|p]; cbn [Z.to_int NilZero.string_of_int];
    try apply uint_starts_digit. lia.
Qed.

Lemma mantissa_starts_digit s : starts_digit s -> starts_digit (mantissa s).
Proof.
  intros (c & r & -> & Hc). unfold mantissa.
  destruct (strip_trailing_zeros r); by do 2 eexists.
Qed.

Lemma first_place_nonneg fuel : forall r d m,
  0 <= r -> 0 <= snd (first_place fuel r d m).
Proof.
  induction fuel as [|fuel IH]; intros r d m Hr; cbn [first_place]; [done|].
  destruct (d <=? r); [done|]. apply IH. lia.
Qed.

(** A number prints as digits, or as a minus sign and digits. *)
Lemma signed_starts_digit (negative : bool) s :
  starts_digit s ->
  let text := ((if negative then "-"%string else EmptyString) ++ s)%string in
  starts_digit text \/ exists r, text = String "-" r /\ starts_digit r.
Proof.
  intros H. destruct negative; [right|left]; [by exists s|done].
Qed.

Lemma number_toString_parses q :
  is_finite (read_volume true (Some (number_toString (Fin q)))) = true.
Proof.
  assert (H : starts_digit (number_toString (Fin q))
              \/ exists r, number_toString (Fin q) = String "-" r /\ starts_digit r).
  { unfold number_toString.
    assert (Hdiv : 0 <= Z.abs (Qnum q) / Z.pos (Qden q)) by (apply Z.div_pos; lia).
    destruct (10 ^ 21 * Z.pos (Qden q) <=? Z.abs (Qnum q)).
    { apply signed_starts_digit. apply starts_digit_app, mantissa_starts_digit.
      by apply starts_digit_app, int_starts_digit. }
    destruct ((0 <? Z.abs (Qnum q)) && (Z.abs (Qnum q) * 10 ^ 6 <? Z.pos (Qden q))).
    { destruct (first_place _ _ _ _) as [m r] eqn:Ef.
      apply signed_starts_digit. apply starts_digit_app, mantissa_starts_digit.
      apply starts_digit_app, int_starts_digit.
      apply Z.div_pos; [|lia].
      change r with (snd (m, r)). rewrite <- Ef. apply first_place_nonneg. lia. }
    case_match.
    - destruct (Qnum q / Z.pos (Qden q)) as [|p|p]; cbn [Z.to_int NilZero.string_of_int].
      + left. apply uint_starts_digit.
      + left. apply uint_starts_digit.
      + right. eexists. split; [reflexivity|]. apply uint_starts_digit.
    - apply signed_starts_digit. by apply starts_digit_app, int_starts_digit. }
  cbn [read_volume].
  destruct H as [Hd|(r & Hr & Hd)].
  - destruct Hd as (c & r & Heq & Hc). rewrite Heq.
    apply parse_digits_finite. by exists c, r.
  - rewrite Hr. by apply parse_negative_finite.
Qed.

Lemma invoke_core d c w w' s :
  Core w -> call_ok c = true ->
  invoke d c w = (w', s) ->
  Core w'
  /\ match s with
     | Done _ => True
     | Await wt fs => task_shape wt fs = true
     end.
Proof.
  intros Hc Hok H. destruct c; cbn [call_ok] in Hok.
  5: { destruct volume; try discriminate.
       destruct (clamp_finite q) as (g & Hg & _).
       core_start. unfold audioVolume in *. rewrite Hg in *.
       cbn [js_mul_lit js_div_lit linearRampToValueAtTime] in *.
       engine_cases. all: core_finish.
       all: split; [constructor; wsimpl; cbn [isSome]; try done|done].
       all: apply number_toString_parses. }
  all: core_start; engine_cases; core_finish.
Qed.

Lemma resume_core d wt fs input w w' s :
  Core w -> task_shape wt fs = true ->
  resume d fs input w = (w', s) ->
  Core w'
  /\ match s with
     | Done _ => True
     | Await wt' fs' => task_shape wt' fs' = true
     end.
Proof.
  intros Hc Hshape H.
  assert (Hfs : (exists f, fs = [f]) \/ (exists f k, fs = [f; k] /\ is_entry f = false)).
  { destruct wt, fs as [|f1 [|f2 [|f3 r]]]; try discriminate;
      destruct f1; try discriminate; try (left; by eexists);
      destruct f2; try discriminate; right; by do 2 eexists. }
  destruct Hfs as [[f ->]|(f & k & -> & Hf)]; cbn [resume] in H.
  - destruct (run_frame d f input w) as [w1 s1] eqn:E1.
    apply run_frame_core in E1 as [Hc1 Hs1]; [|done].
    destruct s1; simplify_eq; [done|]. by destruct Hs1.
  - destruct (run_frame d f input w) as [w1 s1] eqn:E1.
    apply run_frame_core in E1 as [Hc1 Hs1]; [|done].
    destruct s1; [|destruct Hs1; congruence].
    destruct (run_frame d k o w1) as [w2 s2] eqn:E2.
    apply run_frame_core in E2 as [Hc2 Hs2]; [|done].
    destruct s2; simplify_eq; [done|]. by destruct Hs2.
Qed.

Lemma cleanup_core d v w : Core w -> Core (cleanup d v w).
Proof. intros Hc. core_start. engine_cases; by constructor. Qed.

Lemma settle_consistent c r :
  Core (fst r) ->
  Forall (fun t => task_shape (twait t) (tframes t) = true) (tasks (fst r)) ->
  match snd r with Done _ => True | Await wt fs => task_shape wt fs = true end ->
  Consistent (settle c r).
Proof.
  destruct r as [w [o|wt fs]]; cbn [fst snd settle]; intros Hc Ht Hs.
  - destruct Hc. by repeat constructor.
  - destruct Hc. constructor; [by constructor|]. wsimpl.
    apply Forall_app. split; [done|]. by repeat constructor.
Qed.

Lemma resume_same_queue d fs : forall input w w' s,
  resume d fs input w = (w', s) -> same_queue w w'.
Proof.
  induction fs as [|f rest IH]; intros input w w' s H; cbn [resume] in H.
  - by simplify_eq.
  - destruct (run_frame d f input w) as [w1 s1] eqn:E1.
    apply run_frame_same_queue in E1 as [Ht Ho]. destruct s1.
    + apply IH in H as [Ht' Ho']. split; congruence.
    + simplify_eq. by split.
Qed.

(** The four kinds of step, for proving that a property survives [step]. *)
Lemma step_cases (P : World -> Prop) d a w :
  P w ->
  (forall c w' s, a = Invoke c -> invoke d c w = (w', s) -> P (settle c (w', s))) ->
  (forall i t input w' s,
      a = Resume i -> tasks w !! i = Some t -> wake d (twait t) w = Some input ->
      resume d (tframes t) input (set_tasks (delete i (tasks w)) w) = (w', s) ->
      P (settle (tcall t) (w', s))) ->
  (forall j tm,
      a = Fire j -> timers w !! j = Some tm ->
      P (cleanup d (tvoice tm) (set_timers (delete j (timers w)) w))) ->
  (forall ms, a = Tick ms -> P (step d (Tick ms) w)) ->
  P (step d a w).
Proof.
  intros Hw Hinv Hres Hfire Htick. destruct a as [c|i|j|ms]; cbn [step].
  - destruct (invoke d c w) as [w' s] eqn:E. by eapply Hinv.
  - destruct (tasks w !! i) as [t|] eqn:Ei; [|done].
    destruct (wake d (twait t) w) as [input|] eqn:Ew; [|done].
    destruct (resume d (tframes t) input (set_tasks (delete i (tasks w)) w))
      as [w' s] eqn:E.
    by eapply Hres.
  - destruct (timers w !! j) as [tm|] eqn:Ej; [|done].
    case_match; [|done]. by eapply Hfire.
  - by apply Htick.
Qed.

Lemma run_invariant (P : World -> Prop) (ok : Dev * Action -> Prop) :
  (forall d a w, P w -> ok (d, a) -> P (step d a w)) ->
  forall sched w, P w -> Forall ok sched -> P (run sched w).
Proof.
  intros Hstep sched. induction sched as [|[d a] rest IH]; intros w Hw Hok; [done|].
  inversion Hok; subst. cbn [run]. apply IH; [|done]. by apply Hstep.
Qed.

Lemma step_consistent d a w :
  Consistent w -> action_ok a = true -> Consistent (step d a w).
Proof.
  intros [Hc Ht] Hok. apply step_cases.
  - by constructor.
  - intros c w' s -> E. cbn [action_ok] in Hok.
    destruct (invoke_same_queue _ _ _ _ _ E) as [Hq _].
    apply invoke_core in E as [Hc' Hs]; [|done..].
    apply settle_consistent; cbn [fst snd]; [done| |done]. by rewrite Hq.
  - intros i t input w' s -> Ei Ew E.
    set (w0 := set_tasks (delete i (tasks w)) w) in *.
    assert (Hc0 : Core w0) by (destruct Hc; by constructor).
    destruct (resume_same_queue _ _ _ _ _ _ E) as [Hq _].
    apply resume_core with (wt := twait t) in E as [Hc' Hs]; [|done|].
    2: { by eapply Forall_lookup_1 in Ht. }
    apply settle_consistent; cbn [fst snd]; [done| |done].
    rewrite Hq. subst w0. wsimpl. by apply Forall_delete.
  - intros j tm -> Ej. constructor.
    + apply cleanup_core. destruct Hc; by constructor.
    + unfold cleanup. by case_match.
  - intros ms ->. constructor; [destruct Hc; by constructor|done].
Qed.

Lemma initial_consistent stored audio wall :
  is_finite (read_volume true stored) = true ->
  Consistent (initial_world stored audio wall).
Proof. intros H. by repeat constructor. Qed.

Lemma run_consistent sched : forall w,
  Consistent w -> Forall (fun da => action_ok (snd da) = true) sched ->
  Consistent (run sched w).
Proof.
  apply (run_invariant Consistent). intros d a w Hw Hok. by apply step_consistent.
Qed.

Ltac linked_solve :=
  unfold Linked, current, retiring in *; wsimpl;
  rewrite ?fmap_app, ?list_to_set_app_L; cbn [fmap list_fmap tvoice list_to_set];
  try set_solver.

Ltac device_flags :=
  match goal with
  | H : conforming ?d = true |- _ =>
      unfold conforming in H; apply andb_true_iff in H as [? ?]
  end.

Lemma run_frame_linked d f input w w' s :
  Core w -> Linked w -> conforming d = true ->
  (forall fr, f = PlayAfterStop fr -> oscillator w = None) ->
  run_frame d f input w = (w', s) ->
  Linked w' /\ (f = StopAfterFade -> oscillator w' = None).
Proof.
  intros Hc Hl Hd Hpre H. device_flags. core_start.
  engine_cases. all: core_finish.
  all: try (split; [|done]).
  all: try (specialize (Hpre _ eq_refl); simplify_eq).
  all: try congruence.
  all: linked_solve.
Qed.

Lemma invoke_linked d c w w' s :
  Core w -> Linked w -> call_ok c = true ->
  invoke d c w = (w', s) -> Linked w'.
Proof.
  intros Hc Hl Hok H. destruct c; cbn [call_ok] in Hok.
  5: { destruct volume; try discriminate.
       destruct (clamp_finite q) as (g & Hg & _).
       core_start. unfold audioVolume in *. rewrite Hg in *.
       cbn [js_mul_lit js_div_lit linearRampToValueAtTime] in *.
       engine_cases. all: core_finish. }
  all: core_start; engine_cases; core_finish.
Qed.

Lemma resume_linked d wt fs input w w' s :
  Core w -> Linked w -> conforming d = true -> task_shape wt fs = true ->
  resume d fs input w = (w', s) -> Linked w'.
Proof.
  intros Hc Hl Hd Hshape H.
  assert (Hfs : (exists f, fs = [f] /\ forall fr, f <> PlayAfterStop fr)
                \/ (exists k, fs = [EnsureAfterResume; k] /\ is_entry k = true)
                \/ (exists fr, fs = [StopAfterFade; PlayAfterStop fr])).
  { destruct wt, fs as [|f1 [|f2 [|f3 r]]]; try discriminate;
      destruct f1; try discriminate; try (left; by eexists);
      destruct f2; try discriminate; right; (left + right); by eexists. }
  destruct Hfs as [(f & -> & Hf)|[(k & -> & Hk)|(fr & ->)]]; cbn [resume] in H.
  - destruct (run_frame d f input w) as [w1 s1] eqn:E1.
    apply run_frame_linked in E1 as [Hl1 _]; [|done..|].
    + destruct s1; by simplify_eq.
    + intros fr ->. by destruct (Hf fr).
  - destruct (run_frame d EnsureAfterResume input w) as [w1 s1] eqn:E1.
    pose proof (run_frame_core _ _ _ _ _ _ Hc E1) as [Hc1 Hs1].
    apply run_frame_linked in E1 as [Hl1 _]; [|done..].
    destruct s1; [|by destruct Hs1].
    destruct (run_frame d k o w1) as [w2 s2] eqn:E2.
    apply run_frame_linked in E2 as [Hl2 _]; [|done..|].
    + destruct s2; by simplify_eq.
    + intros fr ->. discriminate.
  - destruct (run_frame d StopAfterFade input w) as [w1 s1] eqn:E1.
    pose proof (run_frame_core _ _ _ _ _ _ Hc E1) as [Hc1 Hs1].
    apply run_frame_linked in E1 as [Hl1 Hnone]; [|done..].
    destruct s1; [|by destruct Hs1].
    destruct (run_frame d (PlayAfterStop fr) o w1) as [w2 s2] eqn:E2.
    apply run_frame_linked in E2 as [Hl2 _]; [|done..|].
    + destruct s2; by simplify_eq.
    + intros _ _. by apply Hnone.
Qed.

Lemma linked_queue w w' :
  connected w' = connected w -> oscillator w' = oscillator w ->
  timers w' = timers w -> Linked w -> Linked w'.
Proof. unfold Linked, current, retiring. by intros -> -> ->. Qed.

Lemma settle_linked c r : Linked (fst r) -> Linked (settle c r).
Proof. destruct r as [w [o|wt fs]]; by apply linked_queue. Qed.

Lemma cleanup_linked d j tm w :
  conforming d = true -> timers w !! j = Some tm -> Linked w ->
  Linked (cleanup d (tvoice tm) (set_timers (delete j (timers w)) w)).
Proof.
  intros Hd Hj Hl. device_flags. unfold cleanup.
  replace (disconnect_ok d) with true. unfold Linked, current, retiring in *. wsimpl.
  intros x Hx. apply elem_of_difference in Hx as [Hx Hne].
  apply Hl in Hx. apply elem_of_union in Hx as [Hx|Hx]; [set_solver|].
  apply elem_of_union_r. apply elem_of_list_to_set in Hx. apply elem_of_list_to_set.
  apply list_elem_of_fmap in Hx as (tm' & -> & Hin).
  apply list_elem_of_lookup in Hin as [i Hi].
  assert (i <> j) by (intros ->; set_solver).
  apply list_elem_of_fmap. exists tm'. split; [done|].
  apply list_elem_of_lookup.
  destruct (decide (i < j)%nat).
  - exists i. by rewrite list_lookup_delete_lt.
  - exists (pred i). rewrite list_lookup_delete_ge by lia.
    replace (S (pred i)) with i by lia. done.
Qed.

Lemma step_linked d a w :
  Consistent w -> Linked w -> conforming d = true -> action_ok a = true ->
  Linked (step d a w).
Proof.
  intros [Hc Ht] Hl Hd Hok. apply step_cases.
  - done.
  - intros c w' s -> E. apply settle_linked. cbn [fst]. by eapply invoke_linked.
  - intros i t input w' s -> Ei Ew E. apply settle_linked. cbn [fst].
    eapply (resume_linked d (twait t)); [| |done| |done].
    + destruct Hc; by constructor.
    + by eapply linked_queue.
    + by eapply Forall_lookup_1 in Ht.
  - intros j tm -> Ej. by apply cleanup_linked.
  - intros ms ->. by eapply linked_queue.
Qed.

Lemma size_current w : (size (current w) <= 1)%nat.
Proof.
  unfold current. destruct (oscillator w).
  - rewrite size_singleton. lia.
  - rewrite size_empty. lia.
Qed.

Lemma size_retiring w : (size (retiring w) <= length (timers w))%nat.
Proof.
  unfold retiring. induction (timers w) as [|tm l IH]; cbn.
  - rewrite size_empty. lia.
  - rewrite size_union_alt, size_singleton.
    assert (size (list_to_set (tvoice <$> l) ∖ {[tvoice tm]} : gset nat)
            <= size (list_to_set (tvoice <$> l) : gset nat))%nat
      by (apply subseteq_size; set_solver).
    lia.
Qed.

(** C1, as amended.  On a browser whose [stop] and [disconnect] do not
    throw, with a numeric stored volume, after any sequence of calls and
    any interleaving of their continuations and timers: every oscillator
    connected to the gain node is the current one or one held by a pending
    cleanup timer.  So at most one is connected once the timers have run,
    at most two while one cleanup is pending, and in general at most one
    more than the number of pending cleanups. *)
Theorem C1_connected_voices_bounded
    (stored : option string) (audio : Q) (wall : Z) (sched : list (Dev * Action)) :
  is_finite (read_volume true stored) = true ->
  Forall (fun da => conforming (fst da) = true /\ action_ok (snd da) = true) sched ->
  let w := run sched (initial_world stored audio wall) in
  connected w ⊆ current w ∪ retiring w
  /\ (size (connected w) <= 1 + length (timers w))%nat
  /\ (timers w = [] -> (size (connected w) <= 1)%nat)
  /\ (length (timers w) <= 1 -> (size (connected w) <= 2)%nat)%nat.
Proof.
  intros Hst Hok w.
  assert (Hinv : Consistent w /\ Linked w).
  { subst w.
    apply (run_invariant (fun w => Consistent w /\ Linked w)
             (fun da => conforming (fst da) = true /\ action_ok (snd da) = true));
      [|split|done].
    - intros d a w0 [Hc Hl] [Hd Ha]. split; [by apply step_consistent|by apply step_linked].
    - by apply initial_consistent.
    - unfold Linked. cbn. set_solver. }
  destruct Hinv as [_ Hl].
  assert (Hsize : (size (connected w) <= 1 + length (timers w))%nat).
  { etrans; [apply subseteq_size, Hl|]. rewrite size_union_alt.
    pose proof (size_current w). pose proof (size_retiring w).
    assert (size (retiring w ∖ current w) <= size (retiring w))%nat
      by (apply subseteq_size; set_solver).
    lia. }
  split; [done|]. split; [done|]. split.
  - intros Ht. rewrite Ht in Hsize. cbn in Hsize. lia.
  - intros Ht. lia.
Qed.

Lemma invoke_clean d c w w' s :
  invoke d c w = (w', s) ->
  match s with
  | Done o => justified (c, o)
  | Await wt _ => wait_clean wt
  end.
Proof.
  intros H. engine_cases.
  all: cbn; try done.
  all: match goal with H : negb _ = true |- _ => apply negb_true_iff in H end.
  all: split; [done|]; eauto.
Qed.

Lemma run_frame_clean d f input w w' s :
  not_invalid input -> run_frame d f input w = (w', s) -> step_clean s.
Proof.
  intros Hin H. engine_cases.
Qed.

Lemma resume_clean d fs : forall input w w' s,
  not_invalid input -> resume d fs input w = (w', s) -> step_clean s.
Proof.
  induction fs as [|f rest IH]; intros input w w' s Hin H; cbn [resume] in H.
  - by simplify_eq.
  - destruct (run_frame d f input w) as [w1 s1] eqn:E1.
    apply run_frame_clean in E1; [|done]. destruct s1.
    + by eapply IH.
    + by simplify_eq.
Qed.

Lemma justified_clean c o : not_invalid o -> justified (c, o).
Proof. by destruct o as [|[]]. Qed.

Lemma step_clean_preserved d a w : Clean w -> Clean (step d a w).
Proof.
  intros [Ho Ht]. apply step_cases.
  - by constructor.
  - intros c w' s -> E. destruct (invoke_same_queue _ _ _ _ _ E) as [Hq1 Hq2].
    apply invoke_clean in E. destruct s; constructor; cbn [settle]; wsimpl;
      rewrite ?Hq1, ?Hq2; try done; apply Forall_app; split; try done.
    all: by repeat constructor.
  - intros i t input w' s -> Ei Ew E.
    destruct (resume_same_queue _ _ _ _ _ _ E) as [Hq1 Hq2]. wsimpl.
    assert (Hin : not_invalid input).
    { eapply Forall_lookup_1 in Ht; [|done]. unfold wake in Ew.
      destruct (twait t); simplify_eq; [done|by case_match|by case_match; simplify_eq]. }
    apply resume_clean in E; [|done].
    destruct s; constructor; cbn [settle]; wsimpl; rewrite ?Hq1, ?Hq2; try done.
    + apply Forall_app; split; [done|]. repeat constructor. by apply justified_clean.
    + by apply Forall_delete.
    + apply Forall_app; split; [by apply Forall_delete|]. by repeat constructor.
  - intros j tm -> Ej. unfold cleanup. by case_match; constructor.
  - intros ms ->. by constructor.
Qed.

Lemma isValidFrequency_spec v :
  isValidFrequency v = true <->
  exists q : Q, v = JNum (Fin q) /\ (0 < q)%Q /\ (q < 20000)%Q.
Proof.
  split.
  - destruct v as [[q| | |]| | | |]; try discriminate; cbn.
    intros H. apply andb_true_iff in H as [H1 H2].
    apply Qlt_bool_true in H1, H2. eauto.
  - intros (q & -> & H1 & H2). cbn. apply andb_true_iff.
    split; by apply Qlt_bool_true.
Qed.


























(** C7.  The step of [stopSound] after its fade always resolves, with
    [oscillator] cleared and [isPlaying] false; when [stop] or
    [disconnect] threw, a warning is on the console.  The part before the
    fade either returns [null] and changes nothing (no voice, or not
    playing), or catches an error, warns and clears the state, or reaches
    the wait. *)
Theorem C7_stop_normalizes_state (d : Dev) (w : World) :
  (exists w',
      resume d [StopAfterFade] (Resolved RUndefined) w
        = (w', Done (Resolved (RTimestamp (wallClock w))))
      /\ oscillator w' = None /\ isPlaying w' = false
      /\ (forall o, oscillator w = Some o -> stop_ok d && disconnect_ok d = false ->
           In (LWarn, "Error stopping oscillator:"%string) (console w')))
  /\ match stopSound d w with
     | (w', Done o) =>
         (w' = w /\ o = Resolved RNull /\ (oscillator w = None \/ isPlaying w = false))
         \/ (o = Resolved (RTimestamp (wallClock w))
             /\ oscillator w' = None /\ isPlaying w' = false
             /\ In (LWarn, "Error stopping oscillator:"%string) (console w'))
     | (w', Await wt fs) =>
         fs = [StopAfterFade] /\ oscillator w' = oscillator w /\ isPlaying w' = true
     end.
Proof.
  split.
  - cbn [resume run_frame]. unfold stop_finish, stop_catch.
    destruct (oscillator w) as [o|] eqn:Hosc; [|by eexists].
    destruct (stop_ok d); [destruct (disconnect_ok d)|]; eexists; wsimpl;
      (split; [reflexivity|]); wsimpl; repeat split; try done.
    all: intros ? _ _; apply in_or_app; right; by left.
  - unfold stopSound, stop_catch.
    destruct (oscillator w) as [o|] eqn:Hosc; [|left; by eauto].
    destruct (isPlaying w) eqn:Hplay; [|left; by eauto].
    destruct (audioContext w), (gainNode w); cbn [linearRampToValueAtTime]; wsimpl.
    all: try done.
    all: right; repeat split; try done; apply in_or_app; right; by left.
Qed.

(** C9, as amended.  When the gain node exists, [setVolume] schedules a
    ramp from the present gain to the new ceiling over 0.1 s, whether or
    not a voice is active; when it does not exist yet, [setVolume] does
    nothing. *)
Theorem C9_setVolume_always_ramps (d : Dev) (percent : Q) (w : World) :
  match gainNode w with
  | Some g =>
      let now := match audioContext w with Some _ => audioClock w | None => 0%Q end in
      exists ceiling,
        audioVolume (Fin percent) = Fin ceiling
        /\ gainNode (fst (setVolume d (Fin percent) w)) =
             Some (mkParam (initial g)
                     (schedule (LinearRamp ceiling (now + volumeRampTime))
                        (schedule (SetValue (param_value g now) now) (events g))))
        /\ snd (setVolume d (Fin percent) w) = Done (Resolved RUndefined)
        /\ (volumeRampTime == 1 # 10)%Q
  | None => setVolume d (Fin percent) w = (w, Done (Resolved RUndefined))
  end.
Proof.
  destruct (gainNode w) as [g|] eqn:Hg.
  - destruct (audioVolume_ceiling percent) as (ceiling & Hc & _).
    exists ceiling. split; [done|]. unfold setVolume. rewrite Hg, Hc.
    cbn [linearRampToValueAtTime]. by destruct (storage_ok d).
  - unfold setVolume. by rewrite Hg.
Qed.



(** C6.  A frequency fails [isValidFrequency] exactly when it is not a
    finite number strictly between 0 and 20000.  For such a value
    [playFrequency] and [transitionFrequency] reject with the
    invalid-frequency error and leave the world as it was; in any run an
    invalid-frequency rejection belongs to a [play] or [transition] call
    with such a value.  -5, 0, NaN and 25000 are invalid, 432 is valid and
    [play(432)] resolves. *)
Theorem C6_invalid_frequency_rejected :
  (forall v, isValidFrequency v = false <->
             ~ exists q : Q, v = JNum (Fin q) /\ (0 < q)%Q /\ (q < 20000)%Q)
  /\ (forall d v w,
        isValidFrequency v = false ->
        playFrequency d v w = (w, Done (Rejected (InvalidFrequency v)))
        /\ transitionFrequency d v w = (w, Done (Rejected (InvalidFrequency v))))
  /\ (forall sched stored audio wall c v,
        In (c, Rejected (InvalidFrequency v))
          (outcomes (run sched (initial_world stored audio wall))) ->
        isValidFrequency v = false /\ (c = CallPlay v \/ c = CallTransition v))
  /\ (isValidFrequency (hz (-5)) = false
      /\ isValidFrequency (hz 0) = false
      /\ isValidFrequency (JNum NaN) = false
      /\ isValidFrequency (hz 25000) = false
      /\ isValidFrequency (hz 432) = true)
  /\ outcomes (run play_432 page_loaded)
     = [(CallPlay (hz 432), Resolved (RTimestamp 1000))].
Proof.
  split; [|split; [|split; [|split]]].
  - intros v. rewrite <- isValidFrequency_spec. by destruct (isValidFrequency v).
  - intros d v w Hv. unfold transitionFrequency, playFrequency. by rewrite Hv.
  - intros sched stored audio wall c v Hin.
    assert (Hclean : Clean (run sched (initial_world stored audio wall))).
    { apply (run_invariant Clean (fun _ => True)).
      - intros d a w Hw _. by apply step_clean_preserved.
      - by constructor.
      - by apply Forall_true. }
    destruct Hclean as [Ho _]. rewrite Forall_forall in Ho.
    by apply (Ho (c, Rejected (InvalidFrequency v))), list_elem_of_In.
  - by vm_compute.
  - by vm_compute.
Qed.


(** C1, against the claim as stated: after [play] and two [transition]s
    in a row, all of them settled and both cleanup timers still pending,
    three oscillators are connected to the gain node. *)
Lemma C1_three_voices_connected :
  let w := run rapid_switch page_loaded in
  Forall (fun da => conforming (fst da) = true) rapid_switch
  /\ tasks w = []
  /\ length (timers w) = 2%nat
  /\ size (connected w) = 3%nat
  /\ ~ (size (connected w) <= 2)%nat.
Proof.
  split; [by repeat constructor|].
  split; [by vm_compute|]. split; [by vm_compute|].
  assert (H : size (connected (run rapid_switch page_loaded)) = 3%nat) by (by vm_compute).
  split; [done|]. cbv zeta. rewrite H. lia.
Qed.

(** C1 at [switch_settled]: play, two quick transitions, then both
    cleanup timers run. *)
Lemma C1_connected_voices_bounded_witness :
  is_finite (read_volume true None) = true
  /\ Forall (fun da => conforming (fst da) = true /\ action_ok (snd da) = true)
       switch_settled
  /\ let w := run switch_settled page_loaded in
     connected w ⊆ current w ∪ retiring w
     /\ (size (connected w) <= 1 + length (timers w))%nat
     /\ (timers w = [] -> (size (connected w) <= 1)%nat)
     /\ (length (timers w) <= 1 -> (size (connected w) <= 2)%nat)%nat.
Proof.
  assert (H1 : is_finite (read_volume true None) = true) by reflexivity.
  assert (H2 : Forall (fun da => conforming (fst da) = true /\ action_ok (snd da) = true)
                 switch_settled).
  { repeat constructor. }
  split; [exact H1|]. split; [exact H2|].
  exact (C1_connected_voices_bounded None 0 1000 switch_settled H1 H2).
Defined.




(** C9, against the claim as stated: with the gain node made and no voice
    active, [setVolume(50)] schedules a ramp; the gain is not set
    directly. *)
Lemma C9_setVolume_ramps_without_voice :
  exists g,
    oscillator audio_ready = None /\ isPlaying audio_ready = false
    /\ gainNode audio_ready = Some g
    /\ gainNode (fst (setVolume good_device (Fin 50) audio_ready))
       <> Some (set_param_value (50 / 100 * maxGain) (audioClock audio_ready) g)
    /\ In (LinearRamp (50 / 100 * maxGain) (audioClock audio_ready + volumeRampTime))
         (match gainNode (fst (setVolume good_device (Fin 50) audio_ready)) with
          | Some g' => events g'
          | None => []
          end).
Proof.
  eexists. split; [reflexivity|]. split; [reflexivity|]. split; [reflexivity|].
  split; [by vm_compute|]. vm_compute. auto.
Qed.








(* ====================================================================== *)
(** ** Further properties of the engine, the tables and the storage *)
(* ====================================================================== *)

(** X1.  Once the step of [stopSound] after its fade has run, whatever the
    browser did, a further [stopSound] returns [null] at once and changes
    nothing. *)
Theorem stop_twice_returns_null (d d' : Dev) (input : Outcome) (w : World) :
  let w' := fst (resume d [StopAfterFade] input w) in
  stopSound d' w' = (w', Done (Resolved RNull)).
Proof.
  assert (Hnone : oscillator (fst (resume d [StopAfterFade] input w)) = None).
  { cbn [resume run_frame]. unfold stop_finish, stop_catch.
    repeat case_match; simplify_eq; cbn [fst]; by wsimpl. }
  cbn zeta. unfold stopSound. by rewrite Hnone.
Qed.

Lemma sleep_due (wall wall' : Z) :
  Qle_bool (inject_Z wall + fadeTime * 1000) (inject_Z wall') = true ->
  wall + 800 <= wall'.
Proof.
  intros H. apply Qle_bool_iff in H.
  assert (Heq : (inject_Z wall + fadeTime * 1000 == inject_Z (wall + 800))%Q).
  { rewrite inject_Z_plus. unfold fadeTime. apply Qplus_comp; [reflexivity|]. reflexivity. }
  rewrite Heq in H. by rewrite Zle_Qle.
Qed.

(** X2.  When [stopSound] reaches its wait, the wait is for the one frame
    [StopAfterFade], and when the timer lets it through the call resolves
    with the wall clock of that moment, which is at least 800 ms after the
    call. *)
Theorem stop_resolves_after_fade
    (d d' : Dev) (w w1 w2 : World) (due : Q) (fs : list Frame) (input : Outcome) :
  stopSound d w = (w1, Await (Sleep due) fs) ->
  wake d' (Sleep due) w2 = Some input ->
  fs = [StopAfterFade]
  /\ snd (resume d' fs input w2) = Done (Resolved (RTimestamp (wallClock w2)))
  /\ wallClock w + 800 <= wallClock w2.
Proof.
  intros Hstop Hwake. unfold stopSound, stop_catch in Hstop.
  repeat case_match; simplify_eq.
  cbn [wake] in Hwake. case_match; simplify_eq.
  split; [done|]. split.
  - cbn [resume run_frame]. unfold stop_finish, stop_catch.
    repeat case_match; simplify_eq; by cbn [snd].
  - by apply sleep_due.
Qed.

Lemma calm_action_ok a : calm_action a = true -> action_ok a = true.
Proof. by destruct a as [[]| | |]. Qed.

Lemma invoke_calm d c w w' s :
  Core w -> isPlaying w = true -> calm_call c = true ->
  invoke d c w = (w', s) ->
  isPlaying w' = true
  /\ match s with Done _ => True | Await _ fs => forallb calm_frame fs = true end.
Proof.
  intros Hc Hp Hok H. destruct c; cbn [calm_call] in Hok; try discriminate.
  3: { destruct volume; try discriminate.
       destruct (clamp_finite q) as (g & Hg & _).
       core_start. unfold audioVolume in *. rewrite Hg in *.
       cbn [js_mul_lit js_div_lit linearRampToValueAtTime] in *.
       engine_cases. }
  all: core_start; engine_cases; core_finish.
  all: simplify_eq; cbn [isSome] in *; try congruence.
Qed.

Lemma resume_calm d wt fs input w w' s :
  Core w -> isPlaying w = true -> task_shape wt fs = true ->
  forallb calm_frame fs = true ->
  resume d fs input w = (w', s) ->
  isPlaying w' = true
  /\ match s with Done _ => True | Await _ fs' => forallb calm_frame fs' = true end.
Proof.
  intros Hc Hp Hshape Hcalm H.
  destruct wt, fs as [|f1 [|f2 [|f3 r]]]; try discriminate;
    destruct f1; try discriminate; try destruct f2; try discriminate.
  all: cbn [resume] in *.
  all: core_start; engine_cases; core_finish.
  all: simplify_eq; cbn [isSome] in *; try congruence.
Qed.

(** X3.  Once a tone is playing and no call of [playFrequency] or
    [stopSound] is pending, [getIsPlaying] stays true and [oscillator]
    stays set through any number of [transitionFrequency], [setVolume],
    [setMuteState] and [ensureAudioContext] calls, their continuations,
    cleanup timers and the passing of time. *)
Theorem playing_through_transitions
    (stored : option string) (audio : Q) (wall : Z) (before after : list (Dev * Action)) :
  is_finite (read_volume true stored) = true ->
  Forall (fun da => action_ok (snd da) = true) before ->
  let w := run before (initial_world stored audio wall) in
  isPlaying w = true -> calm_tasks w ->
  Forall (fun da => calm_action (snd da) = true) after ->
  getIsPlaying (run after w) = true /\ oscillator (run after w) <> None.
Proof.
  intros Hst Hbefore w Hplay Hcalm Hafter.
  assert (Hw : Consistent w).
  { apply run_consistent; [|done]. by apply initial_consistent. }
  assert (Hinv : Consistent (run after w) /\ isPlaying (run after w) = true
                 /\ calm_tasks (run after w)).
  { apply (run_invariant
             (fun w => Consistent w /\ isPlaying w = true /\ calm_tasks w)
             (fun da => calm_action (snd da) = true)); [|done|done].
    clear. intros d a w (Hc & Hp & Ht) Ha. cbn [snd] in Ha.
    split; [apply step_consistent; [done|by apply calm_action_ok]|].
    destruct Hc as [Hcore Hshape]. unfold calm_tasks in *. apply step_cases.
    - done.
    - intros c w' s -> E. cbn [calm_action] in Ha.
      destruct (invoke_same_queue _ _ _ _ _ E) as [Hq _].
      apply invoke_calm in E as [Hp' Hs]; [|done..].
      destruct s; cbn [settle]; wsimpl; rewrite ?Hq; (split; [done|]); [done|].
      apply Forall_app. split; [done|]. by repeat constructor.
    - intros i t input w' s -> Ei Ew E.
      destruct (resume_same_queue _ _ _ _ _ _ E) as [Hq _]. wsimpl.
      apply resume_calm with (wt := twait t) in E as [Hp' Hs].
      + destruct s; cbn [settle]; wsimpl; rewrite ?Hq; (split; [done|]).
        * by apply Forall_delete.
        * apply Forall_app. split; [by apply Forall_delete|]. by repeat constructor.
      + destruct Hcore; by constructor.
      + done.
      + by eapply Forall_lookup_1 in Hshape.
      + by eapply Forall_lookup_1 in Ht.
    - intros j tm -> Ej. unfold cleanup. by case_match; wsimpl.
    - intros ms ->. by cbn [step]; wsimpl. }
  destruct Hinv as ([[Hcoupled _ _ _] _] & Hp & _).
  split; [done|]. rewrite Hp in Hcoupled. by destruct (oscillator (run after w)).
Qed.

Ltac live_forall :=
  rewrite ?Forall_app; repeat split;
  first [ eapply Forall_impl; [eassumption|cbn; intros; lia]
        | constructor; [cbn [tvoice]; lia|constructor]
        | idtac ].

Ltac live_lookup :=
  repeat first
    [ rewrite list_lookup_alter_eq
    | rewrite list_lookup_alter_ne by lia
    | rewrite lookup_app_r by lia
    | rewrite lookup_app_l by lia
    | rewrite Nat.sub_diag ];
  cbn [lookup list_lookup fmap option_fmap option_map].

Ltac live_current :=
  rewrite ?length_alter, ?length_app; cbn [length]; repeat split;
  lazymatch goal with
  | |- _ ∈ _ => set_solver
  | |- ex _ => eexists; split; [live_lookup; try eassumption; reflexivity|done]
  | |- Forall _ _ => live_forall
  | |- _ => lia
  end.

Ltac live_solve :=
  repeat match goal with
         | H : forall o, Some ?n = Some o -> _ |- _ =>
             destruct (H n eq_refl) as (? & ? & (? & ? & ?) & ?); clear H
         | H : forall o, None = Some o -> _ |- _ => clear H
         end;
  constructor; wsimpl; rewrite ?length_alter, ?length_app; cbn [length];
  [ live_forall
  | let o := fresh "o" in let Ho := fresh "Ho" in
    intros o Ho; simplify_eq; try live_current ].

Lemma run_frame_live d f input w w' s :
  Core w -> Live w -> run_frame d f input w = (w', s) -> Live w'.
Proof.
  intros Hc Hl H. core_start. destruct Hl as [Ht Hcur]. wsimpl.
  engine_cases. all: core_finish.
  all: simplify_eq; cbn [isSome] in *; try congruence.
  all: live_solve.
Qed.

Lemma invoke_live d c w w' s :
  Core w -> Live w -> call_ok c = true -> invoke d c w = (w', s) -> Live w'.
Proof.
  intros Hc Hl Hok H. destruct c; cbn [call_ok] in Hok.
  5: { destruct volume; try discriminate.
       destruct (clamp_finite q) as (g & Hg & _).
       core_start. destruct Hl as [Ht Hcur]. wsimpl.
       unfold audioVolume in *. rewrite Hg in *.
       cbn [js_mul_lit js_div_lit linearRampToValueAtTime] in *.
       engine_cases. }
  all: core_start; destruct Hl as [Ht Hcur]; wsimpl; engine_cases; core_finish.
Qed.

Lemma resume_live d wt fs input w w' s :
  Core w -> Live w -> task_shape wt fs = true ->
  resume d fs input w = (w', s) -> Live w'.
Proof.
  intros Hc Hl Hshape H.
  assert (Hfs : (exists f, fs = [f]) \/ (exists f k, fs = [f; k])).
  { destruct wt, fs as [|f1 [|f2 [|f3 r]]]; try discriminate;
      destruct f1; try discriminate; try (left; by eexists);
      destruct f2; try discriminate; right; by do 2 eexists. }
  destruct Hfs as [[f ->]|(f & k & ->)]; cbn [resume] in H.
  - destruct (run_frame d f input w) as [w1 s1] eqn:E1.
    apply run_frame_live in E1; [|done..]. destruct s1; by simplify_eq.
  - destruct (run_frame d f input w) as [w1 s1] eqn:E1.
    pose proof (run_frame_core _ _ _ _ _ _ Hc E1) as [Hc1 _].
    apply run_frame_live in E1; [|done..].
    destruct s1; [|by simplify_eq].
    destruct (run_frame d k o w1) as [w2 s2] eqn:E2.
    apply run_frame_live in E2; [|done..]. destruct s2; by simplify_eq.
Qed.

Lemma live_queue w w' :
  voices w' = voices w -> connected w' = connected w ->
  oscillator w' = oscillator w -> timers w' = timers w -> Live w -> Live w'.
Proof. intros Hv Hc Ho Ht [H1 H2]. constructor; by rewrite ?Hv, ?Hc, ?Ho, ?Ht. Qed.

Lemma settle_live c r : Live (fst r) -> Live (settle c r).
Proof. destruct r as [w [o|wt fs]]; by apply live_queue. Qed.

Lemma cleanup_live d j tm w :
  timers w !! j = Some tm -> Live w ->
  Live (cleanup d (tvoice tm) (set_timers (delete j (timers w)) w)).
Proof.
  intros Hj [Ht Hcur]. unfold cleanup. case_match; constructor; wsimpl.
  all: try by apply Forall_delete.
  all: intros o Ho; destruct (Hcur o Ho) as (Hlen & Hin & Hv & Hts).
  all: repeat split; try done; try by apply Forall_delete.
  eapply Forall_lookup_1 in Hts; [|done]. cbn in Hts.
  apply elem_of_difference. split; [done|]. apply not_elem_of_singleton. lia.
Qed.

Lemma step_live d a w :
  Consistent w -> Live w -> action_ok a = true -> Live (step d a w).
Proof.
  intros [Hc Ht] Hl Hok. apply step_cases.
  - done.
  - intros c w' s -> E. apply settle_live. cbn [fst]. by eapply invoke_live.
  - intros i t input w' s -> Ei Ew E. apply settle_live. cbn [fst].
    eapply (resume_live d (twait t)); [| | |done].
    + destruct Hc; by constructor.
    + by apply (live_queue w).
    + by eapply Forall_lookup_1 in Ht.
  - intros j tm -> Ej. by apply cleanup_live.
  - intros ms ->. by apply (live_queue w).
Qed.

(** X4.  In every world a run reaches, with a numeric stored volume, the
    node [oscillator] points to is the newest node made, is connected to
    the gain node, has been started and not told to stop, and no pending
    cleanup timer holds it. *)
Theorem current_voice_is_live
    (stored : option string) (audio : Q) (wall : Z) (sched : list (Dev * Action)) (o : nat) :
  is_finite (read_volume true stored) = true ->
  Forall (fun da => action_ok (snd da) = true) sched ->
  let w := run sched (initial_world stored audio wall) in
  oscillator w = Some o ->
  o ∈ connected w
  /\ (exists v, voices w !! o = Some v /\ is_Some (vstart v) /\ vstop v = None)
  /\ S o = length (voices w)
  /\ Forall (fun tm => tvoice tm <> o) (timers w).
Proof.
  intros Hst Hok w Hosc.
  assert (Hinv : Consistent w /\ Live w).
  { apply (run_invariant (fun w => Consistent w /\ Live w)
             (fun da => action_ok (snd da) = true)); [|split|done].
    - intros d a w0 [Hc Hl] Ha. split; [by apply step_consistent|by apply step_live].
    - by apply initial_consistent.
    - constructor; [by constructor|]. by intros o' Ho'. }
  destruct Hinv as [_ [_ Hcur]].
  destruct (Hcur o Hosc) as (Hlen & Hin & (v & Hv & Hlive) & Hts).
  split; [done|]. split; [|split; [done|]].
  - exists v. split; [done|]. unfold voice_live in Hlive.
    apply andb_true_iff in Hlive as [H1 H2].
    by destruct (vstart v), (vstop v).
  - eapply Forall_impl; [done|]. cbn. intros tm Htm. lia.
Qed.

Lemma read_digits_uint u : forall acc,
  read_digits (NilEmpty.string_of_uint u) (Some acc) = Some (uint_acc u acc).
Proof.
  induction u; intros acc; cbn [NilEmpty.string_of_uint read_digits uint_acc];
    try reflexivity.
  all: match goal with
       | |- context [digit_of ?c] =>
           let d := eval vm_compute in (digit_of c) in
           change (digit_of c) with d
       end; cbn [default]; rewrite IHu.
  all: unfold id; do 2 f_equal; lia.
Qed.

Lemma read_digits_uint_start u :
  u <> Decimal.Nil ->
  read_digits (NilEmpty.string_of_uint u) None = Some (uint_acc u 0).
Proof.
  intros Hu. destruct u; [done|..];
    cbn [NilEmpty.string_of_uint read_digits uint_acc].
  all: match goal with
       | |- context [digit_of ?c] =>
           let d := eval vm_compute in (digit_of c) in
           change (digit_of c) with d
       end; cbn [default]; rewrite read_digits_uint; do 2 f_equal; lia.
Qed.

Lemma uint_acc_pos u : forall p, uint_acc u (Z.pos p) = Z.pos (Pos.of_uint_acc u p).
Proof.
  induction u; intros p; cbn [uint_acc Pos.of_uint_acc]; [done|..].
  all: rewrite <- IHu; f_equal; lia.
Qed.

Lemma uint_acc_N u : uint_acc u 0 = Z.of_N (Pos.of_uint u).
Proof.
  induction u; cbn [uint_acc Pos.of_uint]; [done|by rewrite <- IHu|..].
  all: cbn [Z.of_N]; by rewrite <- uint_acc_pos.
Qed.

Lemma parse_pos_uint p :
  read_digits (NilZero.string_of_uint (Pos.to_uint p)) None = Some (Z.pos p).
Proof.
  pose proof (DecimalPos.Unsigned.to_uint_nonnil p) as Hnil.
  assert (Hs : NilZero.string_of_uint (Pos.to_uint p)
               = NilEmpty.string_of_uint (Pos.to_uint p)).
  { unfold NilZero.string_of_uint. by destruct (Pos.to_uint p). }
  rewrite Hs, read_digits_uint_start by done.
  by rewrite uint_acc_N, DecimalPos.Unsigned.of_to.
Qed.

Lemma pos_uint_starts_digit p :
  exists c r, NilZero.string_of_uint (Pos.to_uint p) = String c r
              /\ is_ws c = false /\ c <> "-"%char /\ c <> "+"%char.
Proof.
  destruct (uint_starts_digit (Pos.to_uint p)) as (c & r & Hs & Hc).
  exists c, r. split; [done|]. by apply digit_not_special.
Qed.

(** Printing a whole number below 1e21 in size and reading it back with
    [parseInt]. *)
Lemma parseInt10_number_toString (z : Z) :
  - 10 ^ 21 < z < 10 ^ 21 ->
  parseInt10 (number_toString (Fin (inject_Z z))) = Fin (inject_Z z).
Proof.
  intros Hz. unfold number_toString, inject_Z. cbn [Qnum Qden].
  change (10 ^ 21) with 1000000000000000000000 in *.
  change (10 ^ 6) with 1000000.
  replace (1000000000000000000000 * 1 <=? Z.abs z) with false
    by (symmetry; apply Z.leb_gt; lia).
  replace ((0 <? Z.abs z) && (Z.abs z * 1000000 <? 1)) with false.
  2:{ symmetry. apply andb_false_iff. destruct (Z.eq_dec z 0) as [->|Hne].
      - by left.
      - right. apply Z.ltb_ge. lia. }
  rewrite Z.mod_1_r, Z.div_1_r. cbn [Z.eqb].
  destruct z as [|p|p]; cbn [Z.to_int NilZero.string_of_int].
  - reflexivity.
  - destruct (pos_uint_starts_digit p) as (c & r & Hs & Hws & Hm & Hp).
    pose proof (parse_pos_uint p) as Hparse. rewrite Hs in *.
    unfold parseInt10. cbn [skip_ws]. rewrite Hws.
    destruct c as [[] [] [] [] [] [] [] []]; try done; by rewrite Hparse.
  - destruct (pos_uint_starts_digit p) as (c & r & Hs & Hws & Hm & Hp).
    pose proof (parse_pos_uint p) as Hparse.
    unfold parseInt10. cbn [skip_ws]. change (is_ws "-") with false. cbn iota.
    by rewrite Hparse.
Qed.

(** From 1e21 on a number prints with an exponent, and [parseInt] reads
    the digits before the point. *)
Lemma number_toString_1e21 : number_toString (Fin (inject_Z (10 ^ 21))) = "1e+21"%string.
Proof. by vm_compute. Qed.

(** X5.  When the gain node exists and [localStorage] works: a whole-number
    volume below 1e21 in size given to [setVolume] is what [getVolume]
    returns afterwards, within 0..100 or not; the next fade-in goes to
    volume / 100 * 0.3, which is the gain [setVolume] ramped to when the
    volume is within 0..100 and exceeds 0.3 when it is above 100.  The
    volume 1e21 is stored as the text [1e+21] and read back as 1. *)
Theorem volume_round_trip (d : Dev) (volume : Z) (w : World) (g : AudioParam) :
  gainNode w = Some g -> storage_ok d = true ->
  let w' := fst (setVolume d (Fin (inject_Z volume)) w) in
  (- 10 ^ 21 < volume < 10 ^ 21 ->
   getVolume d w' = Fin (inject_Z volume)
   /\ targetVolume d w' = Fin (inject_Z volume / 100 * maxGain)
   /\ (0 <= volume <= 100 -> audioVolume (Fin (inject_Z volume)) = targetVolume d w')
   /\ (100 < volume -> (maxGain < inject_Z volume / 100 * maxGain)%Q))
  /\ tol_volume (fst (setVolume d (Fin (inject_Z (10 ^ 21))) w)) = Some "1e+21"%string
  /\ getVolume d (fst (setVolume d (Fin (inject_Z (10 ^ 21))) w)) = Fin 1.
Proof.
  intros Hg Hd w'.
  assert (Hstored : forall v : Z,
            tol_volume (fst (setVolume d (Fin (inject_Z v)) w))
            = Some (number_toString (Fin (inject_Z v)))).
  { intros v. unfold setVolume. rewrite Hg.
    destruct (audioVolume_ceiling (inject_Z v)) as (c & Hc & _). rewrite Hc.
    cbn [linearRampToValueAtTime]. rewrite Hd. by wsimpl. }
  split; [|split].
  2:{ by rewrite Hstored, number_toString_1e21. }
  2:{ unfold getVolume. by rewrite Hstored, number_toString_1e21, Hd. }
  intros Hrange.
  assert (Hget : getVolume d w' = Fin (inject_Z volume)).
  { subst w'. unfold getVolume. rewrite Hstored, Hd. unfold read_volume.
    pose proof (parseInt10_number_toString volume Hrange) as Hparse.
    destruct (number_toString (Fin (inject_Z volume))) eqn:Hs; [|done].
    by vm_compute in Hparse. }
  split; [done|]. unfold targetVolume. rewrite Hget. cbn [js_div_lit js_mul_lit].
  split; [done|]. split.
  - intros [H0 H100]. unfold audioVolume, Math_min, Math_max.
    cbn [js_lt]. unfold Qlt_bool.
    assert (Hle1 : Qle_bool 100 (inject_Z volume) = false \/ volume = 100).
    { destruct (decide (volume = 100)) as [->|Hne]; [by right|left].
      destruct (Qle_bool 100 (inject_Z volume)) eqn:E; [|done].
      apply Qle_bool_iff in E. change 100%Q with (inject_Z 100) in E.
      rewrite <- Zle_Qle in E. lia. }
    destruct Hle1 as [Hle1| ->]; [|by vm_compute].
    rewrite Hle1. cbn [negb js_lt]. unfold Qlt_bool.
    assert (Hle0 : Qle_bool (inject_Z volume) 0 = false \/ volume = 0).
    { destruct (decide (volume = 0)) as [->|Hne]; [by right|left].
      destruct (Qle_bool (inject_Z volume) 0) eqn:E; [|done].
      apply Qle_bool_iff in E. change 0%Q with (inject_Z 0) in E.
      rewrite <- Zle_Qle in E. lia. }
    destruct Hle0 as [Hle0| ->]; [|by vm_compute].
    by rewrite Hle0.
  - intros Hbig. unfold maxGain.
    assert (H : (100 < inject_Z volume)%Q).
    { change 100%Q with (inject_Z 100). by rewrite <- Zlt_Qlt. }
    assert (Hlin : (inject_Z volume / 100 * (3 # 10) == inject_Z volume * (3 # 1000))%Q)
      by (field; discriminate).
    rewrite Hlin. lra.
Qed.

Lemma Qle_bool_later (t c : Q) : (0 < c)%Q -> Qle_bool (t + c) t = false.
Proof.
  intros H. destruct (Qle_bool (t + c) t) eqn:E; [|done].
  apply Qle_bool_iff in E. lra.
Qed.

Lemma Qle_bool_refl (t : Q) : Qle_bool t t = true.
Proof. apply Qle_bool_iff. apply Qle_refl. Qed.

Lemma Qle_bool_before (a t b : Q) :
  Qle_bool a t = true -> Qle_bool b t = false -> Qle_bool a b = true.
Proof.
  intros H1 H2. apply Qle_bool_iff in H1. apply Qle_bool_iff.
  destruct (Qlt_le_dec t b) as [H|H]; [lra|].
  apply Qle_bool_iff in H. congruence.
Qed.

Lemma pinned_value (v t : Q) (evs : list AutomationEvent) :
  pinned v t evs -> forall v0 t0, (value_from v0 t0 evs t == v)%Q.
Proof.
  intros (pre & post & -> & Hpre & Hpost).
  induction Hpre as [|x pre Hx _ IH]; intros v0 t0.
  - cbn [app value_from]. rewrite Qle_bool_refl.
    destruct post as [|[v' te|v' te] r]; cbn [value_from ev_time] in *;
      rewrite ?Hpost; try reflexivity.
    assert (E0 : (t - t == 0)%Q) by ring. rewrite E0. unfold Qdiv. ring.
  - cbn [app value_from]. destruct x as [v' te|v' te]; cbn [ev_time] in Hx;
      rewrite Hx; apply IH.
Qed.

Lemma schedule_pins (v t : Q) (evs : list AutomationEvent) :
  pinned v t (schedule (SetValue v t) evs).
Proof.
  induction evs as [|x r IH].
  - exists [], []. by repeat split.
  - cbn [schedule ev_time]. destruct (Qle_bool (ev_time x) t) eqn:E.
    + destruct IH as (pre & post & -> & Hpre & Hpost).
      exists (x :: pre), post. repeat split; try done. by constructor.
    + exists [], (x :: r). by repeat split.
Qed.

Lemma schedule_later (v t : Q) (e : AutomationEvent) (evs : list AutomationEvent) :
  pinned v t evs -> Qle_bool (ev_time e) t = false -> pinned v t (schedule e evs).
Proof.
  intros (pre & post & -> & Hpre & Hpost) He.
  induction Hpre as [|x pre Hx _ IH].
  - cbn [app schedule ev_time].
    rewrite (Qle_bool_before t t (ev_time e)) by (done || apply Qle_bool_refl).
    exists [], (schedule e post). repeat split; try done.
    destruct post as [|x r]; cbn [schedule]; [done|].
    by destruct (Qle_bool (ev_time x) (ev_time e)).
  - cbn [app schedule]. rewrite (Qle_bool_before _ t _ Hx He).
    destruct IH as (pre' & post' & -> & Hpre' & Hpost').
    exists (x :: pre'), post'. repeat split; try done. by constructor.
Qed.

(** X6.  With the gain node and the context made: right after [setVolume]
    and after the crossfade step of [transitionFrequency] the gain reads,
    at the audio clock of the call, what it read before; after the
    starting step of [playFrequency] it reads 0; after [setMuteState] it
    reads 0 when muted and 0.15 when not, whatever the stored volume. *)
Theorem scheduled_changes_start_smooth
    (d : Dev) (w : World) (g : AudioParam) (ctx : ContextState) :
  gainNode w = Some g -> audioContext w = Some ctx ->
  let now := audioClock w in
  (forall volume w', setVolume d volume w = (w', Done (Resolved RUndefined)) ->
     exists g', gainNode w' = Some g' /\ (param_value g' now == param_value g now)%Q) /\
  (forall newFrequency w' r,
     transition_body d newFrequency w = (w', Done (Resolved r)) ->
     exists g', gainNode w' = Some g' /\ (param_value g' now == param_value g now)%Q) /\
  (forall frequency w' r,
     play_body d frequency w = (w', Done (Resolved r)) ->
     exists g', gainNode w' = Some g' /\ (param_value g' now == 0)%Q) /\
  (forall muted,
     exists g', gainNode (fst (mute_body muted w)) = Some g' /\
       (param_value g' now == if muted then 0 else 15 # 100)%Q).
Proof.
  intros Hg Hctx. cbv zeta. split; [|split; [|split]].
  - intros volume w'. unfold setVolume. rewrite Hg, Hctx.
    destruct (audioVolume volume) as [q| | |]; cbn [linearRampToValueAtTime]; try done.
    intros [= <-]. eexists. split.
    + destruct (storage_ok d); wsimpl; reflexivity.
    + unfold param_value at 1. cbn [events initial setValueAtTime].
      apply pinned_value. apply schedule_later; [apply schedule_pins|].
      cbn [ev_time]. by apply Qle_bool_later.
  - intros newFrequency w' r. unfold transition_body. rewrite Hctx.
    destruct (oscillator w) as [old|]; [|done]. wsimpl. rewrite Hg.
    cbn [linearRampToValueAtTime].
    destruct (targetVolume d _) as [q| | |]; cbn [linearRampToValueAtTime]; try done.
    intros [= <- _]. eexists. split.
    + destruct (stop_ok d); wsimpl; reflexivity.
    + unfold param_value at 1. cbn [events initial setValueAtTime].
      apply pinned_value. do 2 (apply schedule_later; [|cbn [ev_time]; by apply Qle_bool_later]).
      apply schedule_pins.
  - intros frequency w' r. unfold play_body. rewrite Hctx. wsimpl. rewrite Hg.
    destruct (targetVolume d _) as [q| | |]; cbn [linearRampToValueAtTime]; try done.
    intros [= <- _]. eexists. split; [wsimpl; reflexivity|].
    unfold param_value. cbn [events initial setValueAtTime].
    apply pinned_value. apply schedule_later; [apply schedule_pins|].
    cbn [ev_time]. by apply Qle_bool_later.
  - intros muted. unfold mute_body. rewrite Hg. wsimpl. eexists. split; [reflexivity|].
    unfold param_value, set_param_value. cbn [events initial setValueAtTime].
    apply pinned_value. apply schedule_pins.
Qed.

(** X6 at [playing_432]: unmuting. *)
Lemma scheduled_changes_start_smooth_witness :
  gainNode playing_432 = Some gain_432 /\ audioContext playing_432 = Some running /\
  exists g', gainNode (fst (mute_body false playing_432)) = Some g' /\
    (param_value g' (audioClock playing_432) == 15 # 100)%Q.
Proof.
  assert (H1 : gainNode playing_432 = Some gain_432) by reflexivity.
  assert (H2 : audioContext playing_432 = Some running) by reflexivity.
  repeat (split; [assumption|]).
  exact (proj2 (proj2 (proj2 (scheduled_changes_start_smooth good_device playing_432
                                gain_432 running H1 H2))) false).
Defined.

Lemma js_ge_fin (p q : Q) : js_ge (Fin p) (Fin q) = Qle_bool q p.
Proof. unfold js_ge, js_lt, Qlt_bool. by rewrite negb_involutive. Qed.

Lemma js_le_fin (p q : Q) : js_le (Fin p) (Fin q) = Qle_bool p q.
Proof. unfold js_le. apply js_ge_fin. Qed.

Lemma valid_id_integer (id : jsval) :
  isValidNeterId id = true ->
  exists q, id = JNum (Fin q) /\
    0 <= Qnum q / Z.pos (Qden q) <= 10 /\ (q == inject_Z (Qnum q / Z.pos (Qden q)))%Q.
Proof.
  destruct id as [[q| | |]| | | |]; cbn [isValidNeterId Number_isInteger]; try discriminate;
    try (rewrite ?andb_false_r; discriminate).
  rewrite js_ge_fin, js_le_fin. intros H.
  apply andb_prop in H as [H Hint]. apply andb_prop in H as [H0 H10].
  apply Qle_bool_imp_le in H0, H10. apply Z.eqb_eq in Hint.
  destruct q as [n d]. cbn [Qnum Qden] in *.
  unfold Qle in *. cbn [Qnum Qden] in *.
  apply Z.mod_divide in Hint; [|lia]. destruct Hint as [z ->].
  exists (z * Z.pos d # d). cbn [Qnum Qden]. rewrite Z.div_mul by lia.
  split; [done|]. split; [nia|].
  unfold Qeq, inject_Z. cbn [Qnum Qden]. lia.
Qed.

Lemma table_entry (z : Z) :
  0 <= z <= 10 ->
  exists n, neter_at z = Some n /\ nid n = z /\ sphere n = z /\
    isValidFrequency (JNum (Fin (inject_Z (frequency n)))) = true /\
    isValidColor (JNum (Fin (inject_Z (color n)))) = true.
Proof.
  intros H.
  assert (z = 0 \/ z = 1 \/ z = 2 \/ z = 3 \/ z = 4 \/ z = 5 \/ z = 6 \/ z = 7 \/
          z = 8 \/ z = 9 \/ z = 10) as Hz by lia.
  repeat destruct Hz as [-> | Hz]; try subst z;
    (eexists; split; [reflexivity|]; repeat split; reflexivity).
Qed.

Lemma getNeterById_entry (id : jsval) (o : NeterObject) :
  getNeterById id = Some o ->
  exists n q, o = Full n /\ id = JNum (Fin q) /\ (q == inject_Z (nid n))%Q /\
    In n PAUTTI_NETERU /\
    isValidFrequency (JNum (Fin (inject_Z (frequency n)))) = true /\
    isValidColor (JNum (Fin (inject_Z (color n)))) = true.
Proof.
  unfold getNeterById. destruct (isValidNeterId id) eqn:V; [|done].
  destruct (valid_id_integer id V) as (q & -> & Hz & Hq).
  destruct (table_entry _ Hz) as (n & Hn & Hid & _ & Hf & Hc).
  rewrite Hn. cbn [with_id]. intros [= <-]. exists n, q. rewrite Hid.
  repeat split; try done.
  unfold neter_at in Hn. case_match; [done|].
  apply list_elem_of_lookup_2 in Hn. by apply list_elem_of_In.
Qed.

(** X7.  [getNeterById] returns [null] exactly for the ids
    [isValidNeterId] refuses; otherwise it returns an entry of
    [PAUTTI_NETERU] whose [id] is the id asked for, whose frequency passes
    [isValidFrequency] and whose colour passes [isValidColor]. *)
Theorem getNeterById_valid (id : jsval) :
  (getNeterById id = None <-> isValidNeterId id = false) /\
  (forall o, getNeterById id = Some o ->
     exists n q, o = Full n /\ id = JNum (Fin q) /\ (q == inject_Z (nid n))%Q /\
       In n PAUTTI_NETERU /\
       isValidFrequency (JNum (Fin (inject_Z (frequency n)))) = true /\
       isValidColor (JNum (Fin (inject_Z (color n)))) = true).
Proof.
  split; [|apply getNeterById_entry].
  unfold getNeterById. destruct (isValidNeterId id) eqn:V; [|done].
  destruct (valid_id_integer id V) as (q & -> & Hz & Hq).
  split; discriminate.
Qed.

(** X8.  For a day of the month from 1 to 31, [getDailyNeter] returns the
    full table entry with [id = day mod 11], the one [getNeterById] gives
    for that id; the day eleven days later has the same neter. *)
Theorem getDailyNeter_valid (day : Z) :
  1 <= day <= 31 ->
  exists n, getDailyNeter day = Full n /\ nid n = day mod 11 /\
    getNeterById (JNum (Fin (inject_Z (day mod 11)))) = Some (Full n) /\
    getDailyNeter (day + 11) = Full n.
Proof.
  intros H. unfold getDailyNeter.
  rewrite !Z.rem_mod_nonneg by lia.
  replace ((day + 11) mod 11) with (day mod 11)
    by (rewrite <- (Z.mod_add day 1 11) by lia; f_equal; lia).
  assert (0 <= day mod 11 <= 10) as Hz by (pose proof (Z.mod_pos_bound day 11); lia).
  destruct (table_entry _ Hz) as (n & Hn & Hid & _).
  exists n. rewrite Hn. cbn [with_id]. repeat split; try done.
  unfold getNeterById.
  assert (isValidNeterId (JNum (Fin (inject_Z (day mod 11)))) = true) as ->.
  { cbn [isValidNeterId Number_isInteger]. rewrite js_ge_fin, js_le_fin.
    cbn [inject_Z Qnum Qden]. rewrite Z.mod_1_r.
    rewrite !andb_true_r || rewrite andb_true_iff.
    apply andb_true_intro; split; apply Qle_bool_iff; unfold Qle; cbn; lia. }
  cbn [inject_Z Qnum Qden]. rewrite Z.div_1_r. by rewrite Hn.
Qed.

Lemma hex_digit_char (d : Z) : 0 <= d < 16 -> hex_digit_of (hex_char d) = Some d.
Proof.
  intros H.
  assert (d = 0 \/ d = 1 \/ d = 2 \/ d = 3 \/ d = 4 \/ d = 5 \/ d = 6 \/ d = 7 \/
          d = 8 \/ d = 9 \/ d = 10 \/ d = 11 \/ d = 12 \/ d = 13 \/ d = 14 \/ d = 15)
    as Hd by lia.
  repeat destruct Hd as [-> | Hd]; try subst d; reflexivity.
Qed.

Lemma hex_digits_spec (fuel : nat) :
  forall (n : Z) (acc : string),
    0 <= n < 16 ^ Z.of_nat (S fuel) ->
    exists j : nat,
      (1 <= j)%nat /\
      (forall k : nat, (1 <= k)%nat -> n < 16 ^ Z.of_nat k -> (j <= k)%nat) /\
      String.length (hex_digits (S fuel) n acc) = (j + String.length acc)%nat /\
      forall a, hex_value_from (hex_digits (S fuel) n acc) a
                = hex_value_from acc (a * 16 ^ Z.of_nat j + n).
Proof.
  induction fuel as [|fuel IH]; intros n acc Hn.
  - exists 1%nat. change (16 ^ Z.of_nat 1) with 16 in *.
    cbn [hex_digits]. rewrite Z.div_small by lia. cbn [Z.eqb].
    split; [lia|]. split; [intros; lia|]. split; [done|].
    intros a. cbn [hex_value_from]. rewrite hex_digit_char by (apply Z.mod_pos_bound; lia).
    rewrite Z.mod_small by lia. f_equal. change (16 ^ Z.of_nat 1) with 16. lia.
  - remember (S fuel) as f eqn:Ef. cbn [hex_digits].
    destruct (n / 16 =? 0) eqn:Hq.
    + apply Z.eqb_eq in Hq.
      assert (n < 16) as Hs by (pose proof (Z.div_mod n 16); pose proof (Z.mod_pos_bound n 16); lia).
      exists 1%nat. split; [lia|]. split; [intros; lia|]. split; [done|].
      intros a. cbn [hex_value_from]. rewrite hex_digit_char by (apply Z.mod_pos_bound; lia).
      rewrite Z.mod_small by lia. f_equal. change (16 ^ Z.of_nat 1) with 16. lia.
    + apply Z.eqb_neq in Hq.
      assert (0 <= n / 16 < 16 ^ Z.of_nat f) as Hn'.
      { split; [apply Z.div_pos; lia|]. apply Z.div_lt_upper_bound; [lia|].
        replace (16 * 16 ^ Z.of_nat f) with (16 ^ Z.of_nat (S f)); [lia|].
        rewrite Nat2Z.inj_succ, Z.pow_succ_r by lia. done. }
      destruct (IH (n / 16) (String (hex_char (n mod 16)) acc) Hn') as (j & Hj & Hk & Hlen & Hval).
      exists (S j). split; [lia|]. split; [|split].
      * intros k Hk1 Hnk. destruct k as [|k]; [lia|].
        destruct k as [|k].
        { change (16 ^ Z.of_nat 1) with 16 in Hnk. rewrite Z.div_small in Hq by lia. done. }
        enough (j <= S k)%nat by lia. apply Hk; [lia|].
        apply Z.div_lt_upper_bound; [lia|].
        replace (16 * 16 ^ Z.of_nat (S k)) with (16 ^ Z.of_nat (S (S k))); [lia|].
        rewrite (Nat2Z.inj_succ (S k)), Z.pow_succ_r by lia. done.
      * rewrite Hlen. cbn [String.length]. lia.
      * intros a. rewrite Hval. cbn [hex_value_from].
        rewrite hex_digit_char by (apply Z.mod_pos_bound; lia). f_equal.
        rewrite Nat2Z.inj_succ, Z.pow_succ_r by lia.
        pose proof (Z.div_mod n 16). lia.
Qed.

Lemma padStart_zeros (m : nat) (s : string) :
  String.length (repeat_char m "0"%char ++ s)%string = (m + String.length s)%nat /\
  hex_value_from (repeat_char m "0"%char ++ s)%string 0 = hex_value_from s 0.
Proof.
  induction m as [|m [IH1 IH2]]; [done|].
  cbn [repeat_char].
  change (String "0" (repeat_char m "0") ++ s)%string
    with (String "0" (repeat_char m "0" ++ s)%string).
  cbn [String.length]. split; [by rewrite IH1|].
  rewrite <- IH2. reflexivity.
Qed.

Lemma valid_color_range (color : Z) :
  isValidColor (JNum (Fin (inject_Z color))) = true <-> 0 <= color <= 0xffffff.
Proof.
  cbn [isValidColor]. rewrite js_ge_fin, js_le_fin, andb_true_iff, !Qle_bool_iff.
  unfold Qle. cbn. lia.
Qed.

(** X9.  For a whole colour within 0..0xffffff, [colorToHex] is [#]
    followed by exactly six lowercase hexadecimal digits that denote the
    colour; for a whole number outside the range it is [#000000]. *)
Theorem colorToHex_format (color : Z) :
  (0 <= color <= 0xffffff ->
   exists digits, colorToHex color = String "#"%char digits /\
     String.length digits = 6%nat /\ hex_value digits = Some color) /\
  (~ 0 <= color <= 0xffffff -> colorToHex color = "#000000"%string).
Proof.
  unfold colorToHex. split; intros H.
  - rewrite (proj2 (valid_color_range color) H).
    eexists; split; [reflexivity|].
    unfold padStart, toString16.
    replace (color <? 0) with false by (symmetry; apply Z.ltb_ge; lia).
    rewrite Z.abs_eq by lia.
    destruct (hex_digits_spec (Z.to_nat (Z.log2 color)) color EmptyString)
      as (j & Hj & Hk & Hlen & Hval).
    { split; [lia|]. rewrite Nat2Z.inj_succ, Z2Nat.id by apply Z.log2_nonneg.
      destruct (Z.eq_dec color 0) as [->|]; [done|].
      pose proof (Z.log2_spec color ltac:(lia)) as [_ Hlt].
      eapply Z.lt_le_trans; [exact Hlt|].
      apply Z.pow_le_mono_l. lia. }
    specialize (Hk 6%nat ltac:(lia) ltac:(change (16 ^ Z.of_nat 6) with 16777216; lia)).
    cbn [String.length] in Hlen.
    destruct (padStart_zeros
                (6 - String.length (hex_digits (S (Z.to_nat (Z.log2 color))) color EmptyString))
                (hex_digits (S (Z.to_nat (Z.log2 color))) color EmptyString)) as [L V].
    split.
    + rewrite L, Hlen. lia.
    + unfold hex_value. rewrite V, Hval. cbn [hex_value_from]. f_equal; lia.
  - destruct (isValidColor _) eqn:V; [|done].
    apply valid_color_range in V. contradiction.
Qed.

(** [parseInt] returns NaN or a whole number. *)
Lemma parseInt10_integer (s : string) :
  parseInt10 s = NaN \/ exists z, parseInt10 s = Fin (inject_Z z).
Proof.
  unfold parseInt10.
  destruct (match skip_ws s with
            | String "-"%char r => (true, r)
            | String "+"%char r => (false, r)
            | _ => (false, skip_ws s)
            end) as [neg digits].
  destruct (read_digits digits None); eauto.
Qed.

Lemma whole_id_range (z : Z) :
  negb (isNaN (Fin (inject_Z z))) && js_ge (Fin (inject_Z z)) (Fin 0)
    && js_le (Fin (inject_Z z)) (Fin 10) = (0 <=? z) && (z <=? 10).
Proof.
  rewrite js_ge_fin, js_le_fin. cbn [isNaN negb andb].
  f_equal; apply eq_true_iff_eq; rewrite Qle_bool_iff, Z.leb_le;
    unfold Qle; cbn; lia.
Qed.

Lemma whole_id_valid (z : Z) :
  isValidNeterId (JNum (Fin (inject_Z z))) = (0 <=? z) && (z <=? 10).
Proof.
  cbn [isValidNeterId Number_isInteger inject_Z Qnum Qden].
  rewrite Z.mod_1_r, andb_true_r. change (Fin (z # 1)) with (Fin (inject_Z z)).
  rewrite <- whole_id_range. done.
Qed.

Lemma loadLastNeter_whole (a : Access) (st : Storage) (id : jsnum) :
  loadLastNeter a st = Some id ->
  exists z, id = Fin (inject_Z z) /\ 0 <= z <= 10.
Proof.
  unfold loadLastNeter. destruct (getItem_ok a); [|done].
  destruct (kemetic_last_neter st) as [stored|]; [|done].
  destruct (parseInt10_integer stored) as [-> | [z ->]]; [done|].
  rewrite whole_id_range. destruct ((0 <=? z) && (z <=? 10)) eqn:E; [|done].
  intros [= <-]. exists z. split; [done|]. lia.
Qed.

Lemma getNeterById_whole (z : Z) :
  0 <= z <= 10 ->
  exists n, getNeterById (JNum (Fin (inject_Z z))) = Some (Full n) /\ nid n = z /\
    In n PAUTTI_NETERU.
Proof.
  intros H. unfold getNeterById. rewrite whole_id_valid.
  replace ((0 <=? z) && (z <=? 10)) with true by (symmetry; apply andb_true_intro; lia).
  cbn [inject_Z Qnum Qden]. rewrite Z.div_1_r.
  destruct (table_entry z H) as (n & Hn & Hid & _). rewrite Hn.
  exists n. repeat split; try done.
  unfold neter_at in Hn. case_match; [done|].
  apply list_elem_of_lookup_2 in Hn. by apply list_elem_of_In.
Qed.

Lemma save_then_load (a a' : Access) (z : Z) (st : Storage) :
  setItem_ok a = true -> getItem_ok a' = true -> - 10 ^ 21 < z < 10 ^ 21 ->
  loadLastNeter a' (saveLastNeter a (JNum (Fin (inject_Z z))) st)
  = if (0 <=? z) && (z <=? 10) then Some (Fin (inject_Z z)) else None.
Proof.
  intros Hs Hg Hz. unfold saveLastNeter, loadLastNeter. cbn [toString].
  rewrite Hs, Hg. cbn [kemetic_last_neter].
  rewrite parseInt10_number_toString by done. by rewrite whole_id_range.
Qed.

Lemma small_id (z : Z) : 0 <= z <= 10 -> - 10 ^ 21 < z < 10 ^ 21.
Proof. change (10 ^ 21) with 1000000000000000000000. lia. Qed.

(** X10.  The neter [init] starts on is never [null]: it is a table
    entry, the one [loadLastNeter] names when it returns an id (nothing is
    written then), and Amun-Nun otherwise, in which case id 0 is saved and,
    if the write succeeds, loaded back by the next visit. *)
Theorem startingNeter_never_null (a a' : Access) (st : Storage) :
  exists n, snd (startingNeter a a' st) = Some (Full n) /\ In n PAUTTI_NETERU /\
    (forall id, loadLastNeter a st = Some id ->
       id = Fin (inject_Z (nid n)) /\ fst (startingNeter a a' st) = st) /\
    (loadLastNeter a st = None ->
       name n = "Amun-Nun"%string /\
       (setItem_ok a' = true -> forall a'', getItem_ok a'' = true ->
          loadLastNeter a'' (fst (startingNeter a a' st)) = Some (Fin 0))).
Proof.
  unfold startingNeter. destruct (loadLastNeter a st) as [id|] eqn:L.
  - destruct (loadLastNeter_whole a st id L) as (z & -> & Hz).
    destruct (getNeterById_whole z Hz) as (n & Hn & Hid & Hin).
    exists n. rewrite Hn, Hid. cbn [fst snd]. repeat split; try done; congruence.
  - eexists. cbn [fst snd]. split; [reflexivity|]. split.
    { change (In (mkNeter 0 0 "Amun-Nun" "The Hidden One" 432 "Crown + Beyond" 0x1a0033
        "Unmanifested source of all creation, infinite potential.") PAUTTI_NETERU).
      by left. }
    split; [done|]. intros _. split; [done|]. intros Hs a'' Hg.
    exact (save_then_load a' a'' 0 st Hs Hg (small_id 0 ltac:(lia))).
Qed.

(** X11.  With working storage, [loadLastNeter] after
    [saveLastNeter(z)] returns [z] for a whole [z] within 0..10 and [null]
    for a whole [z] outside that is below 1e21 in size; 1e21 is stored as
    [1e+21] and loaded as the id 1.  [saveLastNeter] leaves the sessions,
    journals and settings cells alone. *)
Theorem lastNeter_round_trip (a a' : Access) (z : Z) (st : Storage) :
  setItem_ok a = true -> getItem_ok a' = true ->
  let st' := saveLastNeter a (JNum (Fin (inject_Z z))) st in
  (0 <= z <= 10 -> loadLastNeter a' st' = Some (Fin (inject_Z z))) /\
  (- 10 ^ 21 < z < 0 \/ 10 < z < 10 ^ 21 -> loadLastNeter a' st' = None) /\
  loadLastNeter a' (saveLastNeter a (JNum (Fin (inject_Z (10 ^ 21)))) st) = Some (Fin 1) /\
  kemetic_practices st' = kemetic_practices st /\
  kemetic_journals st' = kemetic_journals st /\
  neteru_settings_v1 st' = neteru_settings_v1 st.
Proof.
  intros Hs Hg st'. subst st'.
  split; [|split; [|split]].
  - intros H. rewrite (save_then_load a a' z st Hs Hg (small_id z H)).
    by replace ((0 <=? z) && (z <=? 10)) with true
      by (symmetry; apply andb_true_intro; lia).
  - intros H. rewrite (save_then_load a a' z st Hs Hg) by lia.
    destruct ((0 <=? z) && (z <=? 10)) eqn:E; [|done].
    apply andb_prop in E as [?%Z.leb_le ?%Z.leb_le]. lia.
  - unfold saveLastNeter, loadLastNeter. cbn [toString].
    rewrite Hs, Hg. cbn [kemetic_last_neter]. by rewrite number_toString_1e21.
  - unfold saveLastNeter. cbn [toString]. by rewrite Hs.
Qed.

Lemma safeRead_written (a a' : Access) (key : Key) (value : Json) (st : Storage) :
  setItem_ok a = true -> getItem_ok a' = true ->
  safeRead a' key (fst (safeWrite a key value st)) = value.
Proof.
  intros Hs Hg. unfold safeRead, safeWrite. rewrite Hs, Hg. by destruct key.
Qed.

Lemma new_entry_id (now : Z) (date : string) (data : Json) :
  exists fields, new_entry now date data = JsonObj fields /\
    fields !! "date"%string = Some (JsonStr date) /\
    (spread_props data !! "id"%string = None ->
       fields !! "id"%string = Some (JsonNum (inject_Z now))) /\
    (forall v, spread_props data !! "id"%string = Some v -> fields !! "id"%string = Some v) /\
    (forall k, k <> "date"%string -> k <> "id"%string -> fields !! k = spread_props data !! k).
Proof.
  eexists. split; [reflexivity|]. split; [by rewrite lookup_insert_eq|].
  split; [|split].
  - intros H. rewrite lookup_insert_ne by done.
    rewrite lookup_union_r by done. by rewrite lookup_singleton_eq.
  - intros v H. rewrite lookup_insert_ne by done.
    by rewrite (lookup_union_Some_l _ _ _ _ H).
  - intros k Hd Hi. rewrite lookup_insert_ne by done.
    destruct (spread_props data !! k) eqn:E.
    + by rewrite (lookup_union_Some_l _ _ _ _ E).
    + rewrite lookup_union_r by done. by rewrite lookup_singleton_ne.
Qed.

(** X12.  When the stored sessions can be iterated, [logSession] returns
    the new entry followed by the first 49 old ones in their order, at most
    50 in all; if the write succeeds [loadSessions] returns that same list
    afterwards, if it fails the storage is unchanged. *)
Theorem logSession_newest_first (a : Access) (now : Z) (date : string)
    (data : Json) (st : Storage) (items : list Json) :
  iterate (loadSessions a st) = Some items ->
  exists updated,
    snd (logSession a now date data st) = Returns updated /\
    length updated = Nat.min 50 (S (length items)) /\
    updated !! 0%nat = Some (new_entry now date data) /\
    (forall i, (i < 49)%nat -> updated !! S i = items !! i) /\
    (forall i, (49 <= i)%nat -> updated !! S i = None) /\
    (setItem_ok a = true -> forall a', getItem_ok a' = true ->
       loadSessions a' (fst (logSession a now date data st)) = JsonArr updated) /\
    (setItem_ok a = false -> fst (logSession a now date data st) = st).
Proof.
  unfold loadSessions, logSession. intros ->. cbn [fst snd].
  eexists. split; [reflexivity|]. split; [by rewrite length_take|].
  split; [done|]. split; [|split; [|split]].
  - intros i Hi. by rewrite lookup_take_lt by lia.
  - intros i Hi. by rewrite lookup_take_ge by lia.
  - intros Hs a' Hg. by apply safeRead_written.
  - intros Hs. unfold safeWrite. by rewrite Hs.
Qed.

Lemma logSession_listed (a : Access) (now : Z) (date : string) (data : Json)
    (st : Storage) :
  listed 50 st ->
  exists updated,
    logSession a now date data st = (fst (logSession a now date data st), Returns updated) /\
    listed 50 (fst (logSession a now date data st)) /\
    (reliable a ->
       stored_count (fst (logSession a now date data st))
       = Nat.min 50 (S (stored_count st))).
Proof.
  unfold listed, stored_count, logSession, safeRead, safeWrite, reliable.
  destruct st as [p j l s]. cbn [getItem setItem kemetic_practices].
  destruct (getItem_ok a), (setItem_ok a), p as [[| |[]]|];
    cbn [iterate fst snd kemetic_practices]; try done; intros H;
    (eexists; split; [reflexivity|]); cbn [fst snd kemetic_practices];
    rewrite ?length_take; cbn [length]; repeat split; try done; try lia;
    try (match goal with R : _ /\ _ |- _ => destruct R; done end).
Qed.

(** X13.  From a sessions cell that is unset or holds a list of at most 50
    entries, no sequence of [logSession] calls throws, whatever the browser
    does with reads and writes, and the cell stays unset or a list of at
    most 50; when every read and write works the list has
    min(50, entries before + calls) entries. *)
Theorem repeated_logging (calls : list LogCall) (st : Storage) :
  listed 50 st ->
  snd (log_all calls st) = true /\
  listed 50 (fst (log_all calls st)) /\
  (Forall (fun c => reliable (log_access c)) calls ->
     stored_count (fst (log_all calls st))
     = Nat.min 50 (stored_count st + length calls)).
Proof.
  revert st. induction calls as [|c calls IH]; intros st H.
  - cbn [log_all fst snd length]. split; [done|]. split; [done|].
    intros _. unfold listed, stored_count in *.
    destruct (kemetic_practices st) as [[| |[]]|]; try done; lia.
  - cbn [log_all length].
    destruct (logSession_listed (log_access c) (log_now c) (log_date c) (log_data c) st H)
      as (updated & E & HL & Hcount).
    rewrite E. destruct (IH _ HL) as (IH1 & IH2 & IH3).
    split; [done|]. split; [done|].
    intros Hall. inversion Hall as [|? ? Hc Hrest]; subst.
    rewrite (IH3 Hrest), (Hcount Hc). lia.
Qed.

Lemma filter_entries_filter (t : jsnum) (items : list Json) :
  ~ In JsonNull items ->
  filter_entries (id_differs t) items = Some (List.filter (keeps t) items).
Proof.
  induction items as [|e items IH]; [done|].
  intros H. cbn [filter_entries List.filter].
  rewrite IH by (intros ?; apply H; by right).
  assert (keeps t e = default true (id_differs t e)) as -> by (unfold keeps; by destruct (id_differs t e) as [[]|]).
  destruct (id_differs t e) as [[]|] eqn:E; try done.
  destruct e as [| | | | |fields]; try done.
  - exfalso. apply H. by left.
  - cbn [id_differs] in E. by destruct (fields !! "id"%string) as [[]|], t.
Qed.

Lemma filter_entries_null (t : jsnum) (items : list Json) :
  In JsonNull items -> filter_entries (id_differs t) items = None.
Proof.
  induction items as [|e items IH]; [done|].
  intros [->|H]; [done|]. cbn [filter_entries]. rewrite (IH H).
  by destruct (id_differs t e).
Qed.

Lemma keeps_has_id (t : Q) (e : Json) : keeps (Fin t) e = false <-> has_id t e.
Proof.
  unfold keeps, id_differs, has_id. split.
  - destruct e as [| | | | |fields]; try done.
    destruct (fields !! "id"%string) as [[|?|q|?|?|?]|] eqn:E; try done.
    destruct (Qeq_bool q t) eqn:Q; [|done]. intros _.
    exists fields, q. repeat split; try done. by apply Qeq_bool_eq.
  - intros (fields & q & -> & -> & Hq).
    by rewrite (proj2 (Qeq_bool_iff q t) Hq).
Qed.

Lemma keeps_not_finite (t : jsnum) (e : Json) : is_finite t = false -> keeps t e = true.
Proof.
  unfold keeps, id_differs. destruct t; [done| | |]; intros _;
    destruct e as [| | | | |fields]; try done;
    by destruct (fields !! "id"%string) as [[]|].
Qed.

Lemma filter_not_finite (t : jsnum) (items : list Json) :
  is_finite t = false -> List.filter (keeps t) items = items.
Proof.
  intros Hn. induction items as [|e items IH]; [done|].
  cbn [List.filter]. rewrite keeps_not_finite by done. by f_equal.
Qed.

Lemma filter_twice (t : jsnum) (items : list Json) :
  List.filter (keeps t) (List.filter (keeps t) items) = List.filter (keeps t) items.
Proof.
  induction items as [|e items IH]; [done|].
  cbn [List.filter]. destruct (keeps t e) eqn:E; [|done].
  cbn [List.filter]. by rewrite E, IH.
Qed.

(** X14.  On a stored list of journals [deleteJournalEntry] throws, writing
    nothing, if an entry is [null]; otherwise it returns the entries whose
    [id] is not the number [Number(entryId)], in their order: all of them
    when that is not a finite number.  After a successful write
    [loadJournals] returns the result and deleting the same id again
    returns it unchanged. *)
Theorem deleteJournalEntry_removes_id (StringToNumber : string -> jsnum)
    (a : Access) (entryId : jsval) (st : Storage) (items : list Json) :
  loadJournals a st = JsonArr items ->
  let targetId := Number StringToNumber entryId in
  let st' := fst (deleteJournalEntry StringToNumber a entryId st) in
  (In JsonNull items -> deleteJournalEntry StringToNumber a entryId st = (st, Throws)) /\
  (~ In JsonNull items ->
     exists updated,
       snd (deleteJournalEntry StringToNumber a entryId st) = Returns updated /\
       updated = List.filter (keeps targetId) items /\
       (forall t, targetId = Fin t ->
          forall e, In e updated <-> In e items /\ ~ has_id t e) /\
       (is_finite targetId = false -> updated = items) /\
       (setItem_ok a = true -> forall a', getItem_ok a' = true ->
          loadJournals a' st' = JsonArr updated /\
          snd (deleteJournalEntry StringToNumber a' entryId st') = Returns updated)).
Proof.
  intros L. cbv zeta. unfold loadJournals in *.
  unfold deleteJournalEntry. rewrite L. split.
  - intros H. by rewrite filter_entries_null.
  - intros H. rewrite filter_entries_filter by done. cbn [fst snd].
    eexists. split; [reflexivity|]. split; [reflexivity|]. split; [|split].
    + intros t -> e. rewrite filter_In. split.
      * intros [Hi Hk]. split; [done|]. intros Hh. apply keeps_has_id in Hh. congruence.
      * intros [Hi Hn]. split; [done|]. destruct (keeps (Fin t) e) eqn:K; [done|].
        exfalso. apply Hn. by apply keeps_has_id.
    + intros Hn. by apply filter_not_finite.
    + intros Hs a' Hg. rewrite safeRead_written by done. split; [done|].
      rewrite filter_entries_filter.
      * cbn [snd]. by rewrite filter_twice.
      * intros Hin. apply filter_In in Hin as [Hin _]. done.
Qed.

Lemma filter_keeps_all (t : Q) (items : list Json) :
  Forall (fun e => ~ has_id t e) items -> List.filter (keeps (Fin t)) items = items.
Proof.
  induction 1 as [|e items He _ IH]; [done|].
  cbn [List.filter]. destruct (keeps (Fin t) e) eqn:K; [by f_equal|].
  exfalso. apply He. by apply keeps_has_id.
Qed.

(** X15.  With working storage, [saveJournalEntry] puts the new entry in
    front of the stored list and [loadJournals] returns that list.  If the
    data has no [id] of its own, [deleteJournalEntry] with the time of
    saving removes the new entry again (and any older entry with that id);
    if the data carries a text [id], that id replaces the time stamp and
    the entry stays. *)
Theorem saved_journal_deletable (StringToNumber : string -> jsnum) (a a' : Access)
    (now : Z) (date : string) (data : Json) (st : Storage) (items : list Json) :
  loadJournals a st = JsonArr items -> ~ In JsonNull items ->
  setItem_ok a = true -> getItem_ok a' = true ->
  let entry := new_entry now date data in
  let st1 := fst (saveJournalEntry a now date data st) in
  let deleted := snd (deleteJournalEntry StringToNumber a' (JNum (Fin (inject_Z now))) st1) in
  snd (saveJournalEntry a now date data st) = Returns (entry :: items) /\
  loadJournals a' st1 = JsonArr (entry :: items) /\
  (spread_props data !! "id"%string = None ->
     deleted = Returns (List.filter (keeps (Fin (inject_Z now))) items) /\
     (Forall (fun e => ~ has_id (inject_Z now) e) items -> deleted = Returns items)) /\
  (forall s, spread_props data !! "id"%string = Some (JsonStr s) ->
     deleted = Returns (entry :: List.filter (keeps (Fin (inject_Z now))) items)).
Proof.
  intros L Hnull Hs Hg. cbv zeta. unfold loadJournals in *.
  unfold saveJournalEntry. rewrite L. cbn [iterate fst snd].
  split; [done|]. rewrite safeRead_written by done. split; [done|].
  unfold deleteJournalEntry. rewrite safeRead_written by done.
  destruct (new_entry_id now date data) as (fields & E & _ & Hfresh & Hown & _).
  assert (~ In JsonNull (new_entry now date data :: items)) as Hnull'.
  { rewrite E. by intros [?|?]. }
  rewrite filter_entries_filter by done. cbn [snd Number List.filter].
  split.
  - intros Hid. specialize (Hfresh Hid).
    assert (keeps (Fin (inject_Z now)) (new_entry now date data) = false) as ->.
    { apply keeps_has_id. exists fields, (inject_Z now). by repeat split. }
    split; [done|]. intros Hall. by rewrite filter_keeps_all.
  - intros s Hid. specialize (Hown _ Hid).
    assert (keeps (Fin (inject_Z now)) (new_entry now date data) = true) as ->; [|done].
    rewrite E. unfold keeps, id_differs. by rewrite Hown.
Qed.

(** X16.  When the stored text parses to a value that cannot be iterated
    (an object, a number, a boolean, [null]), [logSession],
    [saveJournalEntry] and [deleteJournalEntry] throw and leave the storage
    as it was. *)
Theorem foreign_json_throws (StringToNumber : string -> jsnum) (a : Access)
    (now : Z) (date : string) (data : Json) (entryId : jsval) (st : Storage) (v : Json) :
  getItem_ok a = true ->
  kemetic_practices st = Some (Parses v) -> kemetic_journals st = Some (Parses v) ->
  iterate v = None ->
  logSession a now date data st = (st, Throws) /\
  saveJournalEntry a now date data st = (st, Throws) /\
  deleteJournalEntry StringToNumber a entryId st = (st, Throws).
Proof.
  intros Hg Hp Hj Hv.
  unfold logSession, saveJournalEntry, deleteJournalEntry, safeRead.
  rewrite Hg. cbn [getItem]. rewrite Hp, Hj, Hv.
  repeat split. by destruct v.
Qed.

(** X17.  When the sessions cannot be read (the read throws, or the text is
    empty, unset, or not JSON), [logSession] returns a list of the new
    entry alone, and a successful write replaces whatever was stored by
    it. *)
Theorem unreadable_sessions_restart (a : Access) (now : Z) (date : string)
    (data : Json) (st : Storage) :
  getItem_ok a = false \/ kemetic_practices st = Some Malformed \/
  kemetic_practices st = Some Blank \/ kemetic_practices st = None ->
  let entry := new_entry now date data in
  snd (logSession a now date data st) = Returns [entry] /\
  (setItem_ok a = true ->
     kemetic_practices (fst (logSession a now date data st)) = Some (Parses (JsonArr [entry]))).
Proof.
  intros H. cbv zeta.
  assert (safeRead a storageKeys_sessions st = JsonArr []) as E.
  { unfold safeRead. cbn [getItem]. destruct (getItem_ok a); [|done].
    destruct H as [H|[-> |[-> | ->]]]; done. }
  unfold logSession. rewrite E. cbn [iterate take fst snd]. split; [done|].
  intros Hs. unfold safeWrite. by rewrite Hs.
Qed.

Lemma default_setting (key : string) (d : Json) :
  DEFAULT_SETTINGS !! key = Some d -> d <> JsonNull.
Proof.
  unfold DEFAULT_SETTINGS. intros H.
  repeat (apply lookup_insert_Some in H as [[_ <-]|[_ H]]; [done|]).
  apply lookup_singleton_Some in H as [_ <-]. done.
Qed.

Lemma nullish_or_same (x : Property) : nullish_or x x = x.
Proof. by destruct x as [[]| |]. Qed.

Lemma loadSettings_saved (a a' : Access) (settings : gmap string Json) (st : Storage) :
  setItem_ok a = true -> getItem_ok a' = true ->
  loadSettings a' (saveSettings a settings st) = settings ∪ DEFAULT_SETTINGS.
Proof.
  intros Hs Hg. unfold loadSettings, saveSettings. by rewrite Hs, Hg.
Qed.

Lemma loadSettings_defaults (a : Access) (st : Storage) (key : string) (d : Json) :
  DEFAULT_SETTINGS !! key = Some d -> is_Some (loadSettings a st !! key).
Proof.
  intros H. unfold loadSettings.
  destruct (getItem_ok a); [|by eexists].
  destruct (neteru_settings_v1 st) as [[| |v]|]; try by eexists.
  apply lookup_union_is_Some. right. by eexists.
Qed.

(** What [loadSettings] has is what the defaults have, where it has
    nothing of its own. *)
Lemma loadSettings_none (a : Access) (st : Storage) (key : string) :
  loadSettings a st !! key = None -> DEFAULT_SETTINGS !! key = None.
Proof.
  intros H. destruct (DEFAULT_SETTINGS !! key) as [d|] eqn:E; [|done].
  destruct (loadSettings_defaults a st key d E) as [x Hx]. congruence.
Qed.

Lemma set_property_other (key other : string) (value : Json) (fields : gmap string Json) :
  other <> key -> set_property key value fields !! other = fields !! other.
Proof.
  intros Hne. unfold set_property.
  destruct (fields !! key); [by rewrite lookup_insert_ne|].
  destruct (key =? "__proto__")%string; [done|]. by rewrite lookup_insert_ne.
Qed.

Lemma set_property_made (key : string) (value : Json) (fields : gmap string Json) :
  key <> "__proto__"%string \/ is_Some (fields !! key) ->
  set_property key value fields !! key = Some value.
Proof.
  intros H. unfold set_property.
  destruct (fields !! key) eqn:E; [by rewrite lookup_insert_eq|].
  destruct H as [H|[? ?]]; [|done].
  apply String.eqb_neq in H. rewrite H. by rewrite lookup_insert_eq.
Qed.

(** X18.  With working storage.  For a key other than [__proto__], or one
    the loaded settings have as an own property, [getSetting(key)] after
    [updateSetting(key, value)] is [value], or what the defaults give for
    [key] when [value] is [null].  For [__proto__] when it is no own
    property, nothing is stored under it and [getSetting] gives what
    [Object.prototype] has, as before.  Every other key reads as before;
    the sessions, journals and last-neter cells are untouched. *)
Theorem updateSetting_then_getSetting (a a' : Access) (key : string) (value : Json)
    (st : Storage) :
  setItem_ok a = true -> getItem_ok a' = true ->
  let st' := fst (updateSetting a key value st) in
  (key <> "__proto__"%string \/ is_Some (loadSettings a st !! key) ->
   (value <> JsonNull -> getSetting a' key st' = Own value) /\
   (value = JsonNull -> getSetting a' key st' = get_property DEFAULT_SETTINGS key)) /\
  (key = "__proto__"%string -> loadSettings a st !! key = None ->
   getSetting a' key st' = Inherited /\ getSetting a key st = Inherited) /\
  (forall other, other <> key -> getSetting a' other st' = getSetting a other st) /\
  kemetic_practices st' = kemetic_practices st /\
  kemetic_journals st' = kemetic_journals st /\
  kemetic_last_neter st' = kemetic_last_neter st.
Proof.
  intros Hs Hg. cbv zeta. unfold updateSetting, getSetting. cbn [fst].
  rewrite loadSettings_saved by done.
  split; [|split; [|split]].
  - intros Hkey. pose proof (set_property_made key value _ Hkey) as Hmade.
    unfold get_property at 1 3.
    rewrite (lookup_union_Some_l _ _ _ value) by done. split.
    + intros Hv. by destruct value.
    + by intros ->.
  - intros -> Hnone. unfold get_property, set_property. rewrite Hnone.
    cbn [String.eqb Ascii.eqb Bool.eqb]. rewrite lookup_union_r by done.
    rewrite (loadSettings_none a st _ Hnone). done.
  - intros other Hne. unfold get_property at 1 3.
    destruct (loadSettings a st !! other) as [x|] eqn:E.
    + rewrite (lookup_union_Some_l _ _ _ x); [done|].
      by rewrite set_property_other by done.
    + rewrite lookup_union_r.
      2:{ rewrite set_property_other by done. exact E. }
      fold (get_property DEFAULT_SETTINGS other).
      rewrite nullish_or_same.
      unfold get_property. rewrite (loadSettings_none a st _ E).
      by destruct (inherited other).
  - unfold saveSettings. by rewrite Hs.
Qed.

(** X19.  For each of the four keys of [DEFAULT_SETTINGS], [getSetting] is
    never [undefined] or [null] and [loadSettings] defines the key; when
    the settings cannot be read, or none are stored, it is the default. *)
Theorem getSetting_defined (a : Access) (key : string) (st : Storage) :
  is_Some (DEFAULT_SETTINGS !! key) ->
  exists v, getSetting a key st = Own v /\ v <> JsonNull /\
    is_Some (loadSettings a st !! key) /\
    (getItem_ok a = false \/ neteru_settings_v1 st = None \/
     neteru_settings_v1 st = Some Blank \/ neteru_settings_v1 st = Some Malformed ->
     Some v = DEFAULT_SETTINGS !! key).
Proof.
  intros [d Hd]. pose proof (default_setting key d Hd) as Hnn.
  destruct (loadSettings_defaults a st key d Hd) as [x Hx].
  unfold getSetting, get_property. rewrite Hx, Hd.
  assert (getItem_ok a = false \/ neteru_settings_v1 st = None \/
          neteru_settings_v1 st = Some Blank \/ neteru_settings_v1 st = Some Malformed ->
          x = d) as Hdef.
  { intros H. unfold loadSettings in Hx. destruct (getItem_ok a); [|congruence].
    destruct H as [H|[H|[H|H]]]; [done| | |]; rewrite H in Hx; congruence. }
  destruct x; cbn [nullish_or]; eexists; (split; [reflexivity|]); split; try done;
    split; try (by eexists); intros H; specialize (Hdef H); congruence.
Qed.

(** X2 at [playing_432]: the fade is let through at wall-clock time
    1800. *)
Lemma stop_resolves_after_fade_witness :
  let w1 := fst (stopSound good_device playing_432) in
  let w2 := set_clocks (8 # 10) 1800 w1 in
  let due := (inject_Z 1000 + fadeTime * 1000)%Q in
  stopSound good_device playing_432 = (w1, Await (Sleep due) [StopAfterFade]) /\
  wake good_device (Sleep due) w2 = Some (Resolved RUndefined) /\
  snd (resume good_device [StopAfterFade] (Resolved RUndefined) w2)
  = Done (Resolved (RTimestamp 1800)).
Proof.
  cbv zeta.
  assert (H1 : stopSound good_device playing_432
               = (fst (stopSound good_device playing_432),
                  Await (Sleep (inject_Z 1000 + fadeTime * 1000)) [StopAfterFade]))
    by reflexivity.
  assert (H2 : wake good_device (Sleep (inject_Z 1000 + fadeTime * 1000))
                 (set_clocks (8 # 10) 1800 (fst (stopSound good_device playing_432)))
               = Some (Resolved RUndefined)) by reflexivity.
  split; [exact H1|]. split; [exact H2|].
  exact (proj1 (proj2 (stop_resolves_after_fade good_device good_device playing_432 _ _ _ _ _
                         H1 H2))).
Defined.

(** X3 at [play_432] followed by [crossfade_session]. *)
Lemma playing_through_transitions_witness :
  is_finite (read_volume true None) = true /\
  Forall (fun da => action_ok (snd da) = true) play_432 /\
  isPlaying (run play_432 (initial_world None 0 1000)) = true /\
  calm_tasks (run play_432 (initial_world None 0 1000)) /\
  Forall (fun da => calm_action (snd da) = true) crossfade_session /\
  getIsPlaying (run crossfade_session (run play_432 (initial_world None 0 1000))) = true.
Proof.
  assert (H1 : is_finite (read_volume true None) = true) by reflexivity.
  assert (H2 : Forall (fun da => action_ok (snd da) = true) play_432)
    by repeat constructor.
  assert (H3 : isPlaying (run play_432 (initial_world None 0 1000)) = true) by reflexivity.
  assert (H4 : calm_tasks (run play_432 (initial_world None 0 1000))).
  { unfold calm_tasks.
    replace (tasks (run play_432 (initial_world None 0 1000))) with (@nil Task)
      by reflexivity.
    constructor. }
  assert (H5 : Forall (fun da => calm_action (snd da) = true) crossfade_session)
    by repeat constructor.
  repeat (split; [assumption|]).
  exact (proj1 (playing_through_transitions None 0 1000 play_432 crossfade_session
                  H1 H2 H3 H4 H5)).
Defined.

(** X4 at [rapid_switch]: the third node is current. *)
Lemma current_voice_is_live_witness :
  is_finite (read_volume true None) = true /\
  Forall (fun da => action_ok (snd da) = true) rapid_switch /\
  oscillator (run rapid_switch (initial_world None 0 1000)) = Some 2%nat /\
  2%nat ∈ connected (run rapid_switch (initial_world None 0 1000)) /\
  Forall (fun tm => tvoice tm <> 2%nat) (timers (run rapid_switch (initial_world None 0 1000))).
Proof.
  assert (H1 : is_finite (read_volume true None) = true) by reflexivity.
  assert (H2 : Forall (fun da => action_ok (snd da) = true) rapid_switch)
    by repeat constructor.
  assert (H3 : oscillator (run rapid_switch (initial_world None 0 1000)) = Some 2%nat)
    by reflexivity.
  repeat (split; [assumption|]).
  destruct (current_voice_is_live None 0 1000 rapid_switch 2%nat H1 H2 H3)
    as (Hc & _ & _ & Ht).
  split; assumption.
Defined.

(** X5 at [playing_432] with volume 40. *)
Lemma volume_round_trip_witness :
  gainNode playing_432 = Some gain_432 /\ storage_ok good_device = true /\
  - 10 ^ 21 < 40 < 10 ^ 21 /\
  getVolume good_device (fst (setVolume good_device (Fin (inject_Z 40)) playing_432))
  = Fin (inject_Z 40).
Proof.
  assert (H1 : gainNode playing_432 = Some gain_432) by reflexivity.
  assert (H2 : storage_ok good_device = true) by reflexivity.
  assert (H3 : - 10 ^ 21 < 40 < 10 ^ 21) by (by vm_compute).
  repeat (split; [assumption|]).
  exact (proj1 (proj1 (volume_round_trip good_device 40 playing_432 gain_432 H1 H2) H3)).
Defined.

(** X8 on the 15th. *)
Lemma getDailyNeter_valid_witness :
  1 <= 15 <= 31 /\
  exists n, getDailyNeter 15 = Full n /\ nid n = 15 mod 11 /\
    getNeterById (JNum (Fin (inject_Z (15 mod 11)))) = Some (Full n) /\
    getDailyNeter (15 + 11) = Full n.
Proof.
  assert (H : 1 <= 15 <= 31) by lia.
  split; [exact H|]. exact (getDailyNeter_valid 15 H).
Defined.

(** X11 for id 7 and a new user. *)
Lemma lastNeter_round_trip_witness :
  setItem_ok storage_works = true /\ getItem_ok storage_works = true /\ 0 <= 7 <= 10 /\
  loadLastNeter storage_works (saveLastNeter storage_works (JNum (Fin (inject_Z 7))) new_user)
  = Some (Fin (inject_Z 7)).
Proof.
  assert (H1 : setItem_ok storage_works = true) by reflexivity.
  assert (H2 : getItem_ok storage_works = true) by reflexivity.
  assert (H3 : 0 <= 7 <= 10) by lia.
  repeat (split; [assumption|]).
  exact (proj1 (lastNeter_round_trip storage_works storage_works 7 new_user H1 H2) H3).
Defined.

(** X12 for the first session of a new user. *)
Lemma logSession_newest_first_witness :
  iterate (loadSessions storage_works new_user) = Some [] /\
  exists updated,
    snd (logSession storage_works 1000 "1970-01-01T00:00:01.000Z" session_528 new_user)
    = Returns updated /\
    length updated = Nat.min 50 1.
Proof.
  assert (H : iterate (loadSessions storage_works new_user) = Some []) by reflexivity.
  split; [exact H|].
  destruct (logSession_newest_first storage_works 1000 "1970-01-01T00:00:01.000Z"
              session_528 new_user [] H) as (updated & Hr & Hl & _).
  exists updated. split; assumption.
Defined.

(** X13 for two calls, the second with storage that throws. *)
Lemma repeated_logging_witness :
  listed 50 new_user /\
  snd (log_all [mkLogCall storage_works 1000 "1970-01-01T00:00:01.000Z" session_528;
                mkLogCall storage_blocked 2000 "1970-01-01T00:00:02.000Z" session_528]
         new_user) = true.
Proof.
  assert (H : listed 50 new_user) by exact I.
  split; [exact H|].
  exact (proj1 (repeated_logging _ new_user H)).
Defined.

(** X14 at [two_notes], deleting the entry of time 1000. *)
Lemma deleteJournalEntry_removes_id_witness :
  loadJournals storage_works two_notes = JsonArr [second_note; first_note] /\
  ~ In JsonNull [second_note; first_note] /\
  exists updated,
    snd (deleteJournalEntry (fun _ => NaN) storage_works (JNum (Fin 1000)) two_notes)
    = Returns updated /\
    updated = List.filter (keeps (Fin 1000)) [second_note; first_note].
Proof.
  assert (H1 : loadJournals storage_works two_notes = JsonArr [second_note; first_note])
    by reflexivity.
  assert (H2 : ~ In JsonNull [second_note; first_note]).
  { intros [H|[H|[]]]; discriminate H. }
  split; [exact H1|]. split; [exact H2|].
  destruct (proj2 (deleteJournalEntry_removes_id (fun _ => NaN) storage_works
                     (JNum (Fin 1000)) two_notes _ H1) H2) as (updated & Hr & Hf & _).
  exists updated. split; assumption.
Defined.

(** X15 for the first note of a new user. *)
Lemma saved_journal_deletable_witness :
  loadJournals storage_works new_user = JsonArr [] /\ ~ In JsonNull [] /\
  setItem_ok storage_works = true /\ getItem_ok storage_works = true /\
  loadJournals storage_works
    (fst (saveJournalEntry storage_works 1000 "1970-01-01T00:00:01.000Z" (note "first")
            new_user))
  = JsonArr [first_note].
Proof.
  assert (H1 : loadJournals storage_works new_user = JsonArr []) by reflexivity.
  assert (H2 : ~ In JsonNull []) by (intros []).
  assert (H3 : setItem_ok storage_works = true) by reflexivity.
  assert (H4 : getItem_ok storage_works = true) by reflexivity.
  repeat (split; [assumption|]).
  exact (proj1 (proj2 (saved_journal_deletable (fun _ => NaN) storage_works storage_works
                         1000 "1970-01-01T00:00:01.000Z" (note "first") new_user []
                         H1 H2 H3 H4))).
Defined.

(** X16 at [foreign_storage]. *)
Lemma foreign_json_throws_witness :
  getItem_ok storage_works = true /\
  kemetic_practices foreign_storage = Some (Parses (JsonObj ∅)) /\
  kemetic_journals foreign_storage = Some (Parses (JsonObj ∅)) /\
  iterate (JsonObj ∅) = None /\
  logSession storage_works 1000 "1970-01-01T00:00:01.000Z" session_528 foreign_storage
  = (foreign_storage, Throws).
Proof.
  assert (H1 : getItem_ok storage_works = true) by reflexivity.
  assert (H2 : kemetic_practices foreign_storage = Some (Parses (JsonObj ∅))) by reflexivity.
  assert (H3 : kemetic_journals foreign_storage = Some (Parses (JsonObj ∅))) by reflexivity.
  assert (H4 : iterate (JsonObj ∅) = None) by reflexivity.
  repeat (split; [assumption|]).
  exact (proj1 (foreign_json_throws (fun _ => NaN) storage_works 1000
                  "1970-01-01T00:00:01.000Z" session_528 JNull foreign_storage (JsonObj ∅)
                  H1 H2 H3 H4)).
Defined.

(** X17 at [torn_storage]. *)
Lemma unreadable_sessions_restart_witness :
  kemetic_practices torn_storage = Some Malformed /\
  snd (logSession storage_works 1000 "1970-01-01T00:00:01.000Z" session_528 torn_storage)
  = Returns [new_entry 1000 "1970-01-01T00:00:01.000Z" session_528].
Proof.
  assert (H : kemetic_practices torn_storage = Some Malformed) by reflexivity.
  split; [exact H|].
  exact (proj1 (unreadable_sessions_restart storage_works 1000 "1970-01-01T00:00:01.000Z"
                  session_528 torn_storage (or_intror (or_introl H)))).
Defined.

(** X18: switching autoplay on. *)
Lemma updateSetting_then_getSetting_witness :
  setItem_ok storage_works = true /\ getItem_ok storage_works = true /\
  JsonBool true <> JsonNull /\
  getSetting storage_works "autoplay"
    (fst (updateSetting storage_works "autoplay" (JsonBool true) new_user))
  = Own (JsonBool true).
Proof.
  assert (H1 : setItem_ok storage_works = true) by reflexivity.
  assert (H2 : getItem_ok storage_works = true) by reflexivity.
  assert (H3 : JsonBool true <> JsonNull) by discriminate.
  repeat (split; [assumption|]).
  assert (Hk : "autoplay"%string <> "__proto__"%string) by discriminate.
  destruct (updateSetting_then_getSetting storage_works storage_works
              "autoplay" (JsonBool true) new_user H1 H2) as (Hkey & _).
  destruct (Hkey (or_introl Hk)) as [Hv _]. exact (Hv H3).
Defined.

(** X19 for [fadeDuration] with storage that throws. *)
Lemma getSetting_defined_witness :
  is_Some (DEFAULT_SETTINGS !! "fadeDuration"%string) /\
  exists v, getSetting storage_blocked "fadeDuration" new_user = Own v /\ v <> JsonNull.
Proof.
  assert (H : is_Some (DEFAULT_SETTINGS !! "fadeDuration"%string)).
  { exists (JsonNum (8 # 10)). reflexivity. }
  split; [exact H|].
  destruct (getSetting_defined storage_blocked "fadeDuration" new_user H) as (v & Hv & Hn & _).
  exists v. split; assumption.
Defined.

Lemma table_ids (n : Neter) :
  In n PAUTTI_NETERU -> 0 <= nid n <= 10 /\ neter_at (nid n) = Some n.
Proof.
  intros H. unfold PAUTTI_NETERU in H. cbn [In] in H.
  repeat destruct H as [<-|H]; try (split; [cbn [nid]; lia|reflexivity]). done.
Qed.

Lemma getNeterById_hit (n : Neter) :
  In n PAUTTI_NETERU -> getNeterById (JNum (Fin (inject_Z (nid n)))) = Some (Full n).
Proof.
  intros H. destruct (table_ids n H) as [Hr Hn].
  unfold getNeterById. rewrite whole_id_valid.
  replace ((0 <=? nid n) && (nid n <=? 10)) with true
    by (symmetry; apply andb_true_intro; lia).
  cbn [inject_Z Qnum Qden]. rewrite Z.div_1_r. by rewrite Hn.
Qed.

Lemma select_whole (a a' : Access) (z : Z) (state : AppState) (st : Storage) :
  0 <= z <= 10 ->
  exists n, currentNeter (sel_state (selectNeter a a' (JNum (Fin (inject_Z z))) state st))
            = Full n /\ nid n = z /\ In n PAUTTI_NETERU.
Proof.
  intros H. destruct (getNeterById_whole z H) as (n & Hn & Hid & Hin).
  exists n. unfold selectNeter, updateNeterInState. cbn [sel_state]. by rewrite Hn.
Qed.

(** X20.  From a state whose current neter is a table entry:
    [handleNextNeter] moves to the entry with [id + 1] modulo 11,
    [handlePrevNeter] after it moves back to the same entry, [selectNeter]
    with any argument leaves a table entry current, and with working
    storage [loadLastNeter] returns the id [handleNextNeter] moved to. *)
Theorem navigation_stays_on_table (a a' b b' : Access) (state : AppState) (st : Storage) :
  on_table state ->
  let next := handleNextNeter a a' state st in
  let back := handlePrevNeter b b' (sel_state next) (sel_storage next) in
  on_table (sel_state next) /\
  object_id (currentNeter (sel_state next)) = (object_id (currentNeter state) + 1) mod 11 /\
  currentNeter (sel_state back) = currentNeter state /\
  (forall neterId, on_table (sel_state (selectNeter a a' neterId state st))) /\
  (setItem_ok a = true -> forall c, getItem_ok c = true ->
     loadLastNeter c (sel_storage next)
     = Some (Fin (inject_Z (object_id (currentNeter (sel_state next)))))).
Proof.
  intros (n & Hcur & Hin). cbv zeta.
  destruct (table_ids n Hin) as [Hr Hn].
  unfold handleNextNeter at 1 2 3 5 6. rewrite Hcur. cbn [object_id].
  set (nextId := if nid n =? 10 then 0 else nid n + 1).
  assert (0 <= nextId <= 10) as Hnext by (subst nextId; destruct (Z.eqb_spec (nid n) 10); lia).
  assert (nextId = (nid n + 1) mod 11) as Hmod.
  { subst nextId. destruct (Z.eqb_spec (nid n) 10) as [->|]; [done|].
    by rewrite Z.mod_small by lia. }
  destruct (select_whole a a' nextId state st Hnext) as (n' & Hn' & Hid' & Hin').
  split; [by exists n'|]. rewrite Hn'. cbn [object_id]. split; [congruence|].
  split; [|split].
  - unfold handlePrevNeter. unfold handleNextNeter. rewrite Hcur. cbn [object_id].
    fold nextId. rewrite Hn'. cbn [object_id]. rewrite Hid'.
    assert ((if nextId =? 0 then 10 else nextId - 1) = nid n) as ->.
    { subst nextId. destruct (Z.eqb_spec (nid n) 10) as [->|]; [done|].
      destruct (Z.eqb_spec (nid n + 1) 0); lia. }
    unfold selectNeter, updateNeterInState. cbn [sel_state].
    by rewrite (getNeterById_hit n Hin).
  - intros neterId. unfold selectNeter, updateNeterInState. cbn [sel_state].
    destruct (getNeterById neterId) as [o|] eqn:E; [|by exists n].
    destruct (getNeterById_entry neterId o E) as (m & q & -> & _ & _ & Hm & _).
    by exists m.
  - intros Hs c Hc. unfold selectNeter. cbn [sel_storage].
    rewrite (save_then_load a c nextId st Hs Hc (small_id nextId Hnext)).
    replace ((0 <=? nextId) && (nextId <=? 10)) with true
      by (symmetry; apply andb_true_intro; lia).
    by rewrite Hid'.
Qed.

(** X21.  [selectNeter] with a valid id leaves a table entry current with
    [state.isPlaying] false and [state.sessionStart] null.  The frequency
    it hands to [transitionFrequency] or [playFrequency] is valid.  When it
    crossfades, which it does only if the state said playing, the state
    still says not playing after the crossfade has settled.  With no
    settings stored it stops the sound if the state said playing and
    does nothing otherwise. *)
Theorem selectNeter_resets_playing (a a' : Access) (neterId : jsval) (state : AppState)
    (st : Storage) :
  isValidNeterId neterId = true ->
  let r := selectNeter a a' neterId state st in
  on_table (sel_state r) /\
  state_isPlaying (sel_state r) = false /\ sessionStart (sel_state r) = None /\
  (forall f, sel_plan r = PlanTransition f \/ sel_plan r = PlanPlay f ->
     isValidFrequency f = true) /\
  (forall f settled, sel_plan r = PlanTransition f ->
     state_isPlaying state = true /\
     selectNeter_settled (sel_plan r) settled (sel_state r) = Some (sel_state r)) /\
  (neteru_settings_v1 st = None ->
     sel_plan r = if state_isPlaying state then PlanStop else PlanNothing).
Proof.
  intros V. cbv zeta.
  destruct (getNeterById neterId) as [o|] eqn:E.
  2:{ unfold getNeterById in E. rewrite V in E.
      destruct (valid_id_integer neterId V) as (q & -> & _). done. }
  destruct (getNeterById_entry neterId o E) as (n & q & -> & _ & _ & Hin & Hf & _).
  unfold selectNeter, updateNeterInState. rewrite E.
  cbn [sel_state sel_plan sel_storage currentNeter state_isPlaying sessionStart
       object_frequency].
  split; [by exists n|]. split; [done|]. split; [done|]. split; [|split].
  - intros f.
    destruct (state_isPlaying state), (truthy _); cbn [andb negb];
      intros [H|H]; by inversion H.
  - intros f settled.
    destruct (state_isPlaying state), (truthy _); cbn [andb negb]; try done.
  - intros Hnone.
    assert (getSetting a' "autoplay" (saveLastNeter a neterId st) = Own (JsonBool false))
      as ->.
    { unfold getSetting, loadSettings.
      assert (neteru_settings_v1 (saveLastNeter a neterId st) = None) as ->.
      { unfold saveLastNeter. destruct (toString neterId); [|done].
        by destruct (setItem_ok a). }
      by destruct (getItem_ok a'). }
    cbn [truthy]. by destruct (state_isPlaying state).
Qed.

(** X20 at [first_visit]. *)
Lemma navigation_stays_on_table_witness :
  on_table first_visit /\
  currentNeter
    (sel_state (handlePrevNeter storage_works storage_works
                  (sel_state (handleNextNeter storage_works storage_works first_visit new_user))
                  (sel_storage (handleNextNeter storage_works storage_works first_visit
                                  new_user))))
  = currentNeter first_visit.
Proof.
  assert (H : on_table first_visit).
  { eexists. split; [reflexivity|]. unfold PAUTTI_NETERU. cbn [In]. tauto. }
  split; [exact H|].
  exact (proj1 (proj2 (proj2 (navigation_stays_on_table storage_works storage_works
                                storage_works storage_works first_visit new_user H)))).
Defined.

(** X21: selecting Seker while listening with autoplay on. *)
Lemma selectNeter_resets_playing_witness :
  isValidNeterId (hz 3) = true /\
  sel_plan (selectNeter storage_works storage_works (hz 3) (listening first_visit) autoplay_on)
  = PlanTransition (hz 528) /\
  state_isPlaying
    (sel_state (selectNeter storage_works storage_works (hz 3) (listening first_visit)
                  autoplay_on)) = false.
Proof.
  assert (H : isValidNeterId (hz 3) = true) by reflexivity.
  split; [exact H|]. split; [reflexivity|].
  exact (proj1 (proj2 (selectNeter_resets_playing storage_works storage_works (hz 3)
                         (listening first_visit) autoplay_on H))).
Defined.
